(** * Dynamic arrays: a shallow embedding of [dynamic_array.py] and
      [my_dinamic_arr.py], and the properties of their operations.

    The two Python classes [DynamicArray] and [MerabsDinamicArr] are embedded
    method by method.  A method is a computation in a small state-and-exception
    monad over the object's fields: it receives the fields of [self] and either
    returns a value or raises a Python exception, in both cases together with
    the fields as the method left them.

    - Python integers are [Z]; an index may be negative, and a list access
      then counts from the end as Python does.
    - A slot holds [None] or an element of a type [T]; Python's [==] on
      elements is the decidable equality of [T], and [None] equals only itself.
    - A [for] loop is a fold over the list of its indices; the local
      variables of the loop body are threaded through explicitly.
    - A generator is run to its end on unchanged fields: its result is the
      list of the values it yields. *)

From Stdlib Require Import ZArith Lia.
From stdpp Require Import base tactics numbers option list list_numbers strings.

Local Open Scope Z_scope.

(** ** Python layer *)

(** The exceptions the two classes can raise. *)
Inductive exn : Type := ValueError | IndexError.

(** Result of running a method on an object whose fields have type [S]. *)
Inductive outcome (S R : Type) : Type :=
| Return (r : R) (s : S)
| Raise (e : exn) (s : S).
Arguments Return {S R} r s.
Arguments Raise {S R} e s.

Definition M (S R : Type) : Type := S → outcome S R.

Global Instance M_ret {S} : MRet (M S) := λ R r s, Return r s.
Global Instance M_bind {S} : MBind (M S) := λ A B f m s,
  match m s with
  | Return a s' => f a s'
  | Raise e s' => Raise e s'
  end.

Definition raise {S R} (e : exn) : M S R := λ s, Raise e s.
Definition gets {S A} (f : S → A) : M S A := λ s, Return (f s) s.
Definition modify {S} (f : S → S) : M S unit := λ s, Return tt (f s).

(** The fields after a method ran, however it ended. *)
Definition fields {S R} (o : outcome S R) : S :=
  match o with Return _ s => s | Raise _ s => s end.

(** [for i in xs: acc = body(i, acc)]: the loop variable runs over [xs], the
    local variables of the loop are threaded through [acc], and [self] through
    the monad.  An exception in the body leaves the loop. *)
Fixpoint for_ {S L} (xs : list Z) (body : Z → L → M S L) (acc : L) : M S L :=
  match xs with
  | [] => mret acc
  | i :: xs' => acc' ← body i acc; for_ xs' body acc'
  end.

(** [range(n)] and [range(a, b)]; both are empty when the bound is not above
    the start. *)
Definition range (n : Z) : list Z := seqZ 0 n.
Definition range2 (a b : Z) : list Z := seqZ a (b - a).

(** A Python object stored in a slot: [None] or an element of [T]. *)
Abbreviation obj T := (option T) (only parsing).

Section PyList.
Context {T : Type}.

(** [[None] * n]: the empty list when [n <= 0]. *)
Definition none_list (n : Z) : list (obj T) := replicate (Z.to_nat n) None.

(** Position addressed by index [i] in a list: Python counts a negative
    index from the end, and an index outside [-len, len) is an error. *)
Definition norm_index (l : list (obj T)) (i : Z) : option nat :=
  let n := Z.of_nat (length l) in
  if decide (0 ≤ i < n) then Some (Z.to_nat i)
  else if decide (- n ≤ i < 0) then Some (Z.to_nat (n + i))
  else None.

(** [l[i]] *)
Definition getitem (l : list (obj T)) (i : Z) : option (obj T) :=
  k ← norm_index l i; l !! k.

(** [l[i] = v] *)
Definition setitem (l : list (obj T)) (i : Z) (v : (obj T)) : option (list (obj T)) :=
  k ← norm_index l i; Some (<[k := v]> l).

(** A failed list access raises [IndexError]. *)
Definition index_or_raise {S A} (o : option A) : M S A :=
  match o with Some a => mret a | None => raise IndexError end.
End PyList.

(** [str(x)] for the content of a slot, given [str] on the elements. *)
Definition py_str {T} (str_T : T → string) (x : obj T) : string :=
  match x with
  | None => "None"
  | Some a => str_T a
  end.

(** Position of the first element of [l] equal to [o], or [-1]. *)
Definition first_index {T} `{EqDecision T} (o : obj T) (l : list (obj T)) : Z :=
  match list_find (λ x, x = o) l with
  | Some (i, _) => Z.of_nat i
  | None => -1
  end.

(** ** [class DynamicArray] of dynamic_array.py *)

Module DynamicArray.
Section DynamicArray.
Context {T : Type} `{EqDecision T}.

Record t : Type := mk { _capacity : Z; _len : Z; _arr : list (obj T) }.

Definition set_capacity (c : Z) (s : t) : t := mk c (_len s) (_arr s).
Definition set_len (n : Z) (s : t) : t := mk (_capacity s) n (_arr s).
Definition set_arr (a : list (obj T)) (s : t) : t := mk (_capacity s) (_len s) a.

(** [self._arr[i]] and [self._arr[i] = v] *)
Definition arr_get (i : Z) : M t (obj T) :=
  a ← gets _arr; index_or_raise (getitem a i).
Definition arr_set (i : Z) (v : obj T) : M t unit :=
  a ← gets _arr; a' ← index_or_raise (setitem a i v); modify (set_arr a').

Definition __init__ (capacity : Z) : exn + t :=
  if decide (capacity < 0) then inl ValueError
  else inr (mk capacity 0 (none_list capacity)).

Definition size : M t Z := gets _len.

Definition is_empty : M t bool := n ← size; mret (bool_decide (n = 0)).

Definition get (index : Z) : M t (obj T) := arr_get index.

Definition set (index : Z) (elem : obj T) : M t unit := arr_set index elem.

Definition clear : M t unit :=
  n ← gets _len;
  for_ (range n) (λ i _, arr_set i None) tt;;
  modify (set_len 0).

Definition add (elem : obj T) : M t unit :=
  n ← gets _len;
  c ← gets _capacity;
  (if decide (n + 1 >= c) then
     (if decide (c = 0) then modify (set_capacity 1)
      else modify (set_capacity (c * 2)));;
     c' ← gets _capacity;
     n' ← gets _len;
     new_arr ← for_ (range n')
                 (λ i new_arr, x ← arr_get i; index_or_raise (setitem new_arr i x))
                 (none_list c');
     modify (set_arr new_arr)
   else mret tt);;
  n ← gets _len;
  arr_set n elem;;
  modify (set_len (n + 1)).

Definition remove_at (rm_index : Z) : M t (obj T) :=
  n ← gets _len;
  if decide (rm_index >= n ∨ rm_index < 0) then raise IndexError
  else
    data ← arr_get rm_index;
    r ← for_ (range n)
          (λ i (st : list (obj T) * Z),
             if decide (i = rm_index) then mret st
             else x ← arr_get i;
                  new_arr ← index_or_raise (setitem st.1 st.2 x);
                  mret (new_arr, st.2 + 1))
          (none_list (n - 1), 0);
    modify (set_arr r.1);;
    modify (set_len (n - 1));;
    n' ← gets _len;
    modify (set_capacity n');;
    mret data.

(** The loop of [index_of]; a [return i] in the body ends the loop. *)
Fixpoint index_of_loop (o : obj T) (xs : list Z) : M t Z :=
  match xs with
  | [] => mret (-1)
  | i :: xs' =>
      match o with
      | None => x ← arr_get i;
                if bool_decide (x = None) then mret i else index_of_loop o xs'
      | Some _ => x ← arr_get i;
                  if bool_decide (o = x) then mret i else index_of_loop o xs'
      end
  end.

Definition index_of (o : obj T) : M t Z :=
  n ← gets _len; index_of_loop o (range n).

Definition remove (o : obj T) : M t bool :=
  index ← index_of o;
  if decide (index = -1) then mret false
  else remove_at index;; mret true.

Definition contains (o : obj T) : M t bool :=
  index ← index_of o; mret (bool_decide (index ≠ -1)).

(** The generator [__iter__], run to its end on unchanged fields: the
    values it yields, and the exception that ended it if one did. *)
Fixpoint iter_loop (a : list (obj T)) (xs : list Z) : list (obj T) * option exn :=
  match xs with
  | [] => ([], None)
  | i :: xs' =>
      match getitem a i with
      | Some x => let r := iter_loop a xs' in (x :: r.1, r.2)
      | None => ([], Some IndexError)
      end
  end.

Definition __iter__ (s : t) : list (obj T) * option exn :=
  iter_loop (_arr s) (range (_len s)).

(** [__str__], with [str_T] for [str] on the elements. *)
Definition __str__ (str_T : T → string) : M t string :=
  n ← gets _len;
  if decide (n = 0) then mret "[]"
  else
    result ← for_ (range (n - 1))
               (λ i result, x ← arr_get i; mret (result +:+ (py_str str_T x +:+ ", ")))
               "[";
    x ← arr_get (n - 1);
    mret (result +:+ (py_str str_T x +:+ "]")).

Definition __repr__ (str_T : T → string) : M t string :=
  r ← __str__ str_T; mret ("DynamicArray(" +:+ r +:+ ")").

Definition __len__ : M t Z := gets _len.

Definition __getitem__ (index : Z) : M t (obj T) :=
  n ← gets _len;
  if decide (index < 0 ∨ index >= n) then raise IndexError else get index.

Definition __setitem__ (index : Z) (value : obj T) : M t unit :=
  n ← gets _len;
  if decide (index < 0 ∨ index >= n) then raise IndexError else set index value.

(** *** Vocabulary of the properties *)

(** The backing list has [_capacity] slots and the length is within it.
    This holds in every state of an object. *)
Definition Inv (s : t) : Prop :=
  _capacity s = Z.of_nat (length (_arr s)) ∧ 0 ≤ _len s ≤ _capacity s.

(** The live elements: slots [0 .. _len - 1]. *)
Definition live (s : t) : list (obj T) := take (Z.to_nat (_len s)) (_arr s).

(** Every slot past the live ones holds [None]. *)
Definition slack_empty (s : t) : Prop :=
  ∀ k : nat, (Z.to_nat (_len s) ≤ k < length (_arr s))%nat → _arr s !! k = Some None.

(** Capacity chosen by [add] when it grows the store. *)
Definition grown (c : Z) : Z := if decide (c = 0) then 1 else c * 2.

(** The fields [add] leaves: the store is reallocated when
    [_len + 1 >= _capacity], and the element is written at slot [_len]. *)
Definition after_add (x : obj T) (s : t) : t :=
  let n := Z.to_nat (_len s) in
  if decide (_len s + 1 >= _capacity s) then
    mk (grown (_capacity s)) (_len s + 1)
       (<[n := x]> (take n (_arr s) ++ replicate (Z.to_nat (grown (_capacity s)) - n) None))
  else mk (_capacity s) (_len s + 1) (<[n := x]> (_arr s)).

(** The fields [remove_at] leaves: a store of exactly the remaining
    elements. *)
Definition after_remove_at (rm_index : Z) (s : t) : t :=
  mk (_len s - 1) (_len s - 1) (delete (Z.to_nat rm_index) (live s)).

(** The fields [clear] leaves. *)
Definition after_clear (s : t) : t :=
  let n := Z.to_nat (_len s) in
  mk (_capacity s) 0 (replicate n None ++ drop n (_arr s)).

(** A caller adding the elements of [xs] one after the other. *)
Fixpoint add_all (xs : list (obj T)) : M t unit :=
  match xs with
  | [] => mret tt
  | x :: xs' => add x;; add_all xs'
  end.

(** [add(x)] followed by [remove_at(size() - 1)]. *)
Definition add_then_remove_last (x : obj T) : M t (obj T) :=
  add x;; n ← size; remove_at (n - 1).

(** Calls of the public methods that can change the fields. *)
Inductive call : Type :=
| CAdd (elem : obj T)
| CSet (index : Z) (elem : obj T)
| CSetItem (index : Z) (value : obj T)
| CRemoveAt (rm_index : Z)
| CRemove (o : obj T)
| CClear.

(** The fields after a call, whether it returned or raised. *)
Definition exec (c : call) (s : t) : t :=
  match c with
  | CAdd x => fields (add x s)
  | CSet i x => fields (set i x s)
  | CSetItem i x => fields (__setitem__ i x s)
  | CRemoveAt i => fields (remove_at i s)
  | CRemove o => fields (remove o s)
  | CClear => fields (clear s)
  end.

(** States of an object: built by the constructor, then changed by calls. *)
Inductive reachable : t → Prop :=
| reach_init (capacity : Z) (s : t) : __init__ capacity = inr s → reachable s
| reach_call (c : call) (s : t) : reachable s → reachable (exec c s).

(** A plain [set] whose index is not that of a live element. *)
Definition raw_past_length (c : call) (s : t) : Prop :=
  match c with
  | CSet index _ => ¬ (0 ≤ index < _len s)
  | _ => False
  end.

(** States of an object on which no such [set] was ever called. *)
Inductive reachable_checked : t → Prop :=
| checked_init (capacity : Z) (s : t) :
    __init__ capacity = inr s → reachable_checked s
| checked_call (c : call) (s : t) :
    reachable_checked s → ¬ raw_past_length c s → reachable_checked (exec c s).
End DynamicArray.
Arguments t : clear implicits.
Arguments call : clear implicits.
End DynamicArray.

(** ** [class MerabsDinamicArr] of my_dinamic_arr.py *)

Module MerabsDinamicArr.
Section MerabsDinamicArr.
Context {T : Type} `{EqDecision T}.

Record t : Type := mk { capacity : Z; len : Z; arr : list (obj T) }.

Definition set_capacity (c : Z) (s : t) : t := mk c (len s) (arr s).
Definition set_len (n : Z) (s : t) : t := mk (capacity s) n (arr s).
Definition set_arr (a : list (obj T)) (s : t) : t := mk (capacity s) (len s) a.

(** [self.arr[i]] and [self.arr[i] = v] *)
Definition arr_get (i : Z) : M t (obj T) :=
  a ← gets arr; index_or_raise (getitem a i).
Definition arr_set (i : Z) (v : obj T) : M t unit :=
  a ← gets arr; a' ← index_or_raise (setitem a i v); modify (set_arr a').

(** The constructor has no check of its argument. *)
Definition __init__ (capacity : Z) : exn + t :=
  inr (mk capacity 0 (none_list capacity)).

Definition size : M t Z := gets len.

Definition is_empty : M t bool := n ← gets len; mret (bool_decide (n = 0)).

Definition get (index : Z) : M t (obj T) :=
  n ← gets len;
  if decide (index < 0 ∨ index >= n) then raise IndexError
  else arr_get index.

Definition set_at (index : Z) (value : obj T) : M t unit :=
  n ← gets len;
  if decide (index < 0 ∨ index >= n) then raise IndexError
  else arr_set index value.

Definition _resize : M t unit :=
  n ← gets len;
  c ← gets capacity;
  if decide (n >= c) then
    modify (set_capacity (c * 2));;
    c' ← gets capacity;
    n' ← gets len;
    new_arr ← for_ (range n')
                (λ i new_arr, x ← arr_get i; index_or_raise (setitem new_arr i x))
                (none_list c');
    modify (set_arr new_arr)
  else mret tt.

Definition add (value : obj T) : M t unit :=
  _resize;;
  n ← gets len;
  arr_set n value;;
  modify (set_len (n + 1)).

(** [remove_at] has no [return] statement: the call evaluates to [None]. *)
Definition remove_at (index : Z) : M t (obj T) :=
  n ← gets len;
  if decide (index < 0 ∨ index >= n) then raise IndexError
  else
    for_ (range2 index (n - 1))
      (λ i _, x ← arr_get (i + 1); arr_set i x) tt;;
    n' ← gets len;
    arr_set (n' - 1) None;;
    modify (set_len (n' - 1));;
    mret None.

(** The loop of [index_of]; a [return i] in the body ends the loop. *)
Fixpoint index_of_loop (value : obj T) (xs : list Z) : M t Z :=
  match xs with
  | [] => mret (-1)
  | i :: xs' =>
      x ← arr_get i;
      if bool_decide (x = value) then mret i else index_of_loop value xs'
  end.

Definition index_of (value : obj T) : M t Z :=
  n ← gets len; index_of_loop value (range n).

Definition remove (value : obj T) : M t bool :=
  index ← index_of value;
  if decide (index ≠ -1) then remove_at index;; mret true
  else mret false.

Definition contains (value : obj T) : M t bool :=
  index ← index_of value; mret (bool_decide (index ≠ -1)).

(** The generator [__iter__], run to its end on unchanged fields: the
    values it yields, and the exception that ended it if one did.  A slot
    holding [None] is passed over. *)
Fixpoint iter_loop (a : list (obj T)) (xs : list Z) : list (obj T) * option exn :=
  match xs with
  | [] => ([], None)
  | i :: xs' =>
      match getitem a i with
      | Some x =>
          let r := iter_loop a xs' in
          if bool_decide (x ≠ None) then (x :: r.1, r.2) else r
      | None => ([], Some IndexError)
      end
  end.

Definition __iter__ (s : t) : list (obj T) * option exn :=
  iter_loop (arr s) (range (len s)).

(** [__str__], with [str_T] for [str] on the elements. *)
Definition __str__ (str_T : T → string) : M t string :=
  n ← gets len;
  if decide (n = 0) then mret "[]"
  else
    result ← for_ (range (n - 1))
               (λ i result, x ← arr_get i; mret (result +:+ (py_str str_T x +:+ ", ")))
               "[";
    x ← arr_get (n - 1);
    mret (result +:+ (py_str str_T x +:+ "]")).

(** *** Vocabulary of the properties *)

(** The live elements lie within the backing list.  This holds in every
    state of an object. *)
Definition Live (s : t) : Prop := 0 ≤ len s ≤ Z.of_nat (length (arr s)).

(** Moreover the backing list has [capacity] slots.  This holds in every
    state of an object built with a capacity that is not negative. *)
Definition Inv (s : t) : Prop :=
  capacity s = Z.of_nat (length (arr s)) ∧ Live s.

(** The live elements: slots [0 .. len - 1]. *)
Definition live (s : t) : list (obj T) := take (Z.to_nat (len s)) (arr s).

(** Every slot past the live ones holds [None]. *)
Definition slack_empty (s : t) : Prop :=
  ∀ k : nat, (Z.to_nat (len s) ≤ k < length (arr s))%nat → arr s !! k = Some None.

(** The fields [_resize] leaves: the store is reallocated when
    [len >= capacity]. *)
Definition after_resize (s : t) : t :=
  let n := Z.to_nat (len s) in
  if decide (len s >= capacity s) then
    mk (capacity s * 2) (len s)
       (take n (arr s) ++ replicate (Z.to_nat (capacity s * 2) - n) None)
  else s.

(** The fields [add] leaves when the write succeeds. *)
Definition after_add (x : obj T) (s : t) : t :=
  let s' := after_resize s in
  mk (capacity s') (len s + 1) (<[Z.to_nat (len s) := x]> (arr s')).

(** The fields [remove_at] leaves: the elements after [index] moved one slot
    down, the freed slot emptied, the capacity kept. *)
Definition after_remove_at (index : Z) (s : t) : t :=
  mk (capacity s) (len s - 1)
     (delete (Z.to_nat index) (live s) ++ None :: drop (Z.to_nat (len s)) (arr s)).

(** A caller adding the elements of [xs] one after the other. *)
Fixpoint add_all (xs : list (obj T)) : M t unit :=
  match xs with
  | [] => mret tt
  | x :: xs' => add x;; add_all xs'
  end.

(** [add(x)] followed by [remove_at(size() - 1)]. *)
Definition add_then_remove_last (x : obj T) : M t (obj T) :=
  add x;; n ← size; remove_at (n - 1).

(** Calls of the public methods that can change the fields. *)
Inductive call : Type :=
| CAdd (value : obj T)
| CSetAt (index : Z) (value : obj T)
| CRemoveAt (index : Z)
| CRemove (value : obj T).

(** The fields after a call, whether it returned or raised. *)
Definition exec (c : call) (s : t) : t :=
  match c with
  | CAdd x => fields (add x s)
  | CSetAt i x => fields (set_at i x s)
  | CRemoveAt i => fields (remove_at i s)
  | CRemove o => fields (remove o s)
  end.

(** States of an object: built by the constructor, then changed by calls. *)
Inductive reachable_from (s0 : t) : t → Prop :=
| reach_refl : reachable_from s0 s0
| reach_call (c : call) (s : t) : reachable_from s0 s → reachable_from s0 (exec c s).

Definition reachable (s : t) : Prop :=
  ∃ capacity s0, __init__ capacity = inr s0 ∧ reachable_from s0 s.
End MerabsDinamicArr.
Arguments t : clear implicits.
Arguments call : clear implicits.
End MerabsDinamicArr.

(** * Properties *)

(** ** Running the monad *)

Ltac run := unfold mbind, M_bind, mret, M_ret, gets, modify, raise; cbn.

Lemma bind_Return {S A B} (m : M S A) (f : A → M S B) s a s' :
  m s = Return a s' → (m ≫= f) s = f a s'.
Proof. intros H. unfold mbind, M_bind. by rewrite H. Qed.

Lemma bind_Raise {S A B} (m : M S A) (f : A → M S B) s e s' :
  m s = Raise e s' → (m ≫= f) s = Raise e s'.
Proof. intros H. unfold mbind, M_bind. by rewrite H. Qed.

Lemma run_gets {S A B} (f : S → A) (k : A → M S B) s :
  (gets f ≫= k) s = k (f s) s.
Proof. done. Qed.

Lemma run_modify {S B} (f : S → S) (k : unit → M S B) s :
  (modify f ≫= k) s = k tt (f s).
Proof. done. Qed.

Lemma run_mret {S A B} (a : A) (k : A → M S B) s : (mret a ≫= k) s = k a s.
Proof. done. Qed.

Lemma run_raise {S A B} (e : exn) (k : A → M S B) s :
  (raise e ≫= k) s = Raise e s.
Proof. done. Qed.

Lemma run_assoc {S A B C} (m : M S A) (f : A → M S B) (g : B → M S C) s :
  ((m ≫= f) ≫= g) s = (m ≫= λ a, f a ≫= g) s.
Proof. unfold mbind, M_bind. by destruct (m s). Qed.

(** One statement of a method body, at the head of the goal. *)
Ltac mstep :=
  first [ rewrite run_assoc | rewrite run_gets | rewrite run_modify
        | rewrite run_mret | rewrite run_raise ]; cbn beta.

(** Run the statement at the head with the result [H : m s = Return a s']. *)
Ltac mreturn H := rewrite (bind_Return _ _ _ _ _ H); cbn beta.
Tactic Notation "mcall" uconstr(lem) "by" tactic3(tac) :=
  erewrite bind_Return by (eapply lem; tac); cbn beta.

(** A loop whose body returns normally whenever the invariant [I] holds
    returns normally, and [I] holds at its end.  [I k acc s] speaks of the
    local variables [acc] and the fields [s] before iteration number [k]. *)
Lemma for_invariant {S L} (I : nat → L → S → Prop) (xs : list Z)
    (body : Z → L → M S L) (acc : L) (s : S) :
  I 0%nat acc s →
  (∀ k i a s0, xs !! k = Some i → I k a s0 →
     ∃ a' s1, body i a s0 = Return a' s1 ∧ I (Datatypes.S k) a' s1) →
  ∃ a' s', for_ xs body acc s = Return a' s' ∧ I (length xs) a' s'.
Proof.
  revert I acc s. induction xs as [|i xs IH]; intros I acc s H0 Hstep.
  - exists acc, s. done.
  - destruct (Hstep 0%nat i acc s) as (a1 & s1 & Hb & H1); [done..|].
    destruct (IH (λ k, I (Datatypes.S k)) a1 s1) as (a' & s' & Hf & HI); [done| |].
    + intros k j a s0 Hk. by apply (Hstep (Datatypes.S k)).
    + exists a', s'. split; [|done]. cbn. by rewrite (bind_Return _ _ _ _ _ Hb).
Qed.

(** Reason about the loop in the goal with the invariant [I]. *)
Tactic Notation "loop_with" constr(I) "as" simple_intropattern(pat) :=
  match goal with
  | |- context [for_ ?xs ?body ?acc ?s] =>
      destruct (for_invariant I xs body acc s) as pat
  end.

Lemma lookup_range (n : Z) (k : nat) (i : Z) :
  range n !! k = Some i → i = Z.of_nat k ∧ 0 ≤ i < n.
Proof. unfold range. intros [-> ?]%lookup_seqZ. lia. Qed.

Lemma length_range (n : Z) : length (range n) = Z.to_nat n.
Proof. apply length_seqZ. Qed.

(** ** Python lists *)

Section PyListFacts.
Context {T : Type}.
Implicit Types (l : list (obj T)) (i : Z) (v x : obj T).

Lemma length_none_list (n : Z) : length (none_list (T:=T) n) = Z.to_nat n.
Proof. apply length_replicate. Qed.

Lemma norm_index_in l i :
  0 ≤ i < Z.of_nat (length l) → norm_index l i = Some (Z.to_nat i).
Proof. intros. unfold norm_index. by rewrite decide_True. Qed.

Lemma norm_index_above l i :
  Z.of_nat (length l) ≤ i → norm_index l i = None.
Proof. intros. unfold norm_index. rewrite !decide_False by lia. done. Qed.

Lemma getitem_in l i :
  0 ≤ i < Z.of_nat (length l) → getitem l i = l !! Z.to_nat i.
Proof. intros. unfold getitem. by rewrite norm_index_in. Qed.

Lemma getitem_nat l (k : nat) x :
  l !! k = Some x → getitem l (Z.of_nat k) = Some x.
Proof.
  intros H. pose proof (lookup_lt_Some _ _ _ H).
  rewrite getitem_in by lia. by rewrite Nat2Z.id.
Qed.

Lemma setitem_in l i v :
  0 ≤ i < Z.of_nat (length l) → setitem l i v = Some (<[Z.to_nat i := v]> l).
Proof. intros. unfold setitem. by rewrite norm_index_in. Qed.

Lemma setitem_above l i v : Z.of_nat (length l) ≤ i → setitem l i v = None.
Proof. intros. unfold setitem. by rewrite norm_index_above. Qed.

(** Filling slot [j] of a store whose first [j] slots already hold the
    first [j] elements of [src] and whose other slots are empty. *)
Lemma fill_step (src : list (obj T)) (c j : nat) x :
  src !! j = Some x → (j < c)%nat →
  setitem (take j src ++ replicate (c - j) None) (Z.of_nat j) x
  = Some (take (Datatypes.S j) src ++ replicate (c - Datatypes.S j) None).
Proof.
  intros Hx Hj. pose proof (lookup_lt_Some _ _ _ Hx) as Hlt.
  assert (length (take j src) = j) as Hlen by (rewrite length_take; lia).
  rewrite setitem_in, Nat2Z.id.
  2:{ rewrite length_app, length_replicate, Hlen. lia. }
  f_equal. rewrite insert_app_r_alt by lia. rewrite Hlen, Nat.sub_diag.
  replace (c - j)%nat with (Datatypes.S (c - Datatypes.S j)) by lia.
  cbn. rewrite (take_S_r _ _ _ Hx), <- app_assoc. done.
Qed.

Lemma setitem_length l i v l' : setitem l i v = Some l' → length l' = length l.
Proof.
  unfold setitem. destruct (norm_index l i); cbn; [|done].
  intros [= <-]. apply length_insert.
Qed.

Lemma seqZ_nat_S (k m : nat) :
  seqZ (Z.of_nat k) (Z.of_nat (Datatypes.S m))
  = Z.of_nat k :: seqZ (Z.of_nat (Datatypes.S k)) (Z.of_nat m).
Proof. rewrite seqZ_cons by lia. f_equal. f_equal; lia. Qed.
End PyListFacts.

Section FirstIndex.
Context {T : Type} `{EqDecision T}.
Implicit Types (l : list (obj T)) (o : obj T).

Lemma first_index_cons o x l :
  first_index o (x :: l)
  = if decide (x = o) then 0
    else if decide (first_index o l = -1) then -1 else first_index o l + 1.
Proof.
  unfold first_index. cbn. destruct (decide (x = o)); [done|].
  destruct (list_find _ l) as [[i y]|]; cbn; [|done].
  rewrite decide_False by lia. lia.
Qed.

Lemma first_index_absent o l : o ∉ l → first_index o l = -1.
Proof.
  intros Hnot. unfold first_index.
  destruct (list_find _ l) as [[i y]|] eqn:Hf; [|done].
  apply list_find_Some in Hf as (Hl & -> & _).
  destruct Hnot. by eapply list_elem_of_lookup_2.
Qed.

(** When [o] occurs, [first_index] is the least position holding it. *)
Lemma first_index_present o l :
  o ∈ l →
  ∃ k : nat, first_index o l = Z.of_nat k ∧ l !! k = Some o
             ∧ ∀ j : nat, (j < k)%nat → l !! j ≠ Some o.
Proof.
  intros Hin. unfold first_index.
  destruct (list_find _ l) as [[i y]|] eqn:Hf.
  - apply list_find_Some in Hf as (Hl & -> & Hleast).
    exists i. split_and!; [done..|].
    intros j Hj Hlj. by apply (Hleast j o).
  - apply list_find_None in Hf. rewrite Forall_forall in Hf.
    by destruct (Hf o).
Qed.

Lemma first_index_range o l :
  first_index o l = -1 ∨ 0 ≤ first_index o l < Z.of_nat (length l).
Proof.
  unfold first_index. destruct (list_find _ l) as [[i y]|] eqn:Hf; [|by left].
  apply list_find_Some in Hf as (Hl%lookup_lt_Some & _). right. lia.
Qed.
End FirstIndex.

(** ** Loops shared by the two classes *)

Section Loops.
Context {T : Type} {S : Type} (proj : S → list (obj T)).

(** The copy loop of [add] and [_resize]:
    [for i in range(n): new_arr[i] = self.arr[i]] on a fresh store of
    [c] empty slots. *)
Lemma copy_loop (s : S) (n c : Z) :
  0 ≤ n ≤ Z.of_nat (length (proj s)) → n ≤ c →
  for_ (range n)
    (λ i new_arr, x ← (a ← gets proj; index_or_raise (getitem a i));
                  index_or_raise (setitem new_arr i x))
    (none_list c) s
  = Return (take (Z.to_nat n) (proj s) ++ replicate (Z.to_nat c - Z.to_nat n) None) s.
Proof.
  intros Hn Hc.
  loop_with (λ (k : nat) (dst : list (obj T)) (s0 : S),
    s0 = s ∧ dst = take k (proj s) ++ replicate (Z.to_nat c - k) None)
    as (dst & s' & Hrun & -> & ->).
  - split; [done|]. by rewrite take_0, Nat.sub_0_r.
  - intros k i a s0 [-> Hi]%lookup_range [-> ->].
    destruct (lookup_lt_is_Some_2 (proj s) k) as [x Hx]; [lia|].
    eexists _, s. split; [|done]. run.
    rewrite (getitem_nat _ _ _ Hx). cbn.
    rewrite (fill_step _ _ _ _ Hx) by lia. done.
  - rewrite Hrun, length_range. done.
Qed.
End Loops.

(** ** [DynamicArray] *)

Module DynamicArrayFacts.
Import DynamicArray.
Section Facts.
Context {T : Type} `{EqDecision T}.
Implicit Types (s : t T) (x v o : obj T) (i index : Z).

Lemma arr_get_nat s (k : nat) x :
  _arr s !! k = Some x → arr_get (Z.of_nat k) s = Return x s.
Proof. intros H. unfold arr_get. run. by rewrite (getitem_nat _ _ _ H). Qed.

Lemma arr_get_in s i :
  0 ≤ i < Z.of_nat (length (_arr s)) →
  ∃ x, _arr s !! Z.to_nat i = Some x ∧ arr_get i s = Return x s.
Proof.
  intros Hi. destruct (lookup_lt_is_Some_2 (_arr s) (Z.to_nat i)) as [x Hx]; [lia|].
  exists x. split; [done|]. rewrite <- (Z2Nat.id i) by lia. by apply arr_get_nat.
Qed.

Lemma arr_set_in s i v :
  0 ≤ i < Z.of_nat (length (_arr s)) →
  arr_set i v s = Return tt (set_arr (<[Z.to_nat i := v]> (_arr s)) s).
Proof. intros Hi. unfold arr_set. run. by rewrite setitem_in. Qed.

Lemma arr_set_above s i v :
  Z.of_nat (length (_arr s)) ≤ i → arr_set i v s = Raise IndexError s.
Proof. intros Hi. unfold arr_set. run. by rewrite setitem_above. Qed.

(** *** [add] *)

Lemma grow_loop s (n c : Z) :
  0 ≤ n ≤ Z.of_nat (length (_arr s)) → n ≤ c →
  for_ (range n)
    (λ i new_arr, x ← arr_get i; index_or_raise (setitem new_arr i x))
    (none_list c) s
  = Return (take (Z.to_nat n) (_arr s) ++ replicate (Z.to_nat c - Z.to_nat n) None) s.
Proof. apply (copy_loop _arr). Qed.

Lemma add_spec s x : Inv s → add x s = Return tt (after_add x s).
Proof.
  intros [Hc [Hn0 Hn]]. destruct s as [c n a]; cbn in *.
  unfold add, after_add, grown. do 2 mstep. cbn.
  destruct (decide (n + 1 >= c)) as [Hg|Hg].
  - assert (n ≤ grown c) as Hgc by (unfold grown; case_decide; lia).
    assert ((if decide (c = 0) then modify (set_capacity 1)
             else modify (set_capacity (c * 2))) (mk c n a)
            = Return tt (mk (grown c) n a)) as Hcap.
    { unfold grown. by case_decide. }
    repeat mstep. mreturn Hcap. repeat mstep. cbn.
    mcall grow_loop by (cbn; lia). repeat mstep. cbn.
    mcall arr_set_in by (cbn; rewrite length_app, length_take, length_replicate;
                         unfold grown in *; case_decide; lia).
    done.
  - repeat mstep. cbn. mcall arr_set_in by (cbn; lia). done.
Qed.

(** *** [remove_at] *)

Lemma remove_at_out_of_range s index :
  index < 0 ∨ index >= _len s → remove_at index s = Raise IndexError s.
Proof.
  intros Hi. unfold remove_at. mstep. rewrite decide_True by lia. done.
Qed.

Lemma length_live s : Inv s → length (live s) = Z.to_nat (_len s).
Proof. intros [Hc Hn]. unfold live. rewrite length_take. lia. Qed.

Lemma lookup_live s (k : nat) :
  (k < Z.to_nat (_len s))%nat → live s !! k = _arr s !! k.
Proof. intros. unfold live. by rewrite lookup_take_lt. Qed.

Lemma remove_at_loop s (rm : nat) :
  Inv s → (rm < Z.to_nat (_len s))%nat →
  for_ (range (_len s))
    (λ i (st : list (obj T) * Z),
       if decide (i = Z.of_nat rm) then mret st
       else x ← arr_get i;
            new_arr ← index_or_raise (setitem st.1 st.2 x);
            mret (new_arr, st.2 + 1))
    (none_list (_len s - 1), 0) s
  = Return (delete rm (live s), _len s - 1) s.
Proof.
  intros HInv Hrm. pose proof (length_live s HInv) as Hlive. destruct HInv as [Hc Hn].
  set (n := Z.to_nat (_len s)) in *.
  set (pos := λ k : nat, if decide (k ≤ rm)%nat then k else (k - 1)%nat).
  assert (length (delete rm (live s)) = (n - 1)%nat) as Hdel.
  { rewrite length_delete; [lia|]. apply lookup_lt_is_Some_2. lia. }
  loop_with (λ (k : nat) (st : list (obj T) * Z) (s0 : t T),
    s0 = s ∧ st = (take (pos k) (delete rm (live s)) ++ replicate (n - 1 - pos k) None,
                   Z.of_nat (pos k)))
    as (st & s' & Hrun & -> & ->).
  - split; [done|]. unfold pos, none_list. rewrite decide_True by lia.
    rewrite take_0, Nat.sub_0_r. cbn. do 2 f_equal. lia.
  - intros k i st s0 [-> Hi]%lookup_range [-> ->].
    eexists _, s. split; [|done].
    destruct (decide (Z.of_nat k = Z.of_nat rm)) as [Heq|Hne].
    + assert (k = rm) as -> by lia. unfold pos.
      rewrite decide_True, decide_False by lia.
      replace (Datatypes.S rm - 1)%nat with rm by lia. done.
    + destruct (lookup_lt_is_Some_2 (_arr s) k) as [x Hx]; [lia|].
      mreturn (arr_get_nat s k x Hx). cbn [fst snd].
      assert (delete rm (live s) !! pos k = Some x ∧ pos (Datatypes.S k) = Datatypes.S (pos k)
              ∧ (pos k < n - 1)%nat) as (Hpos & HS & Hlt).
      { unfold pos. destruct (decide (k ≤ rm)%nat).
        - rewrite decide_True by lia.
          rewrite list_lookup_delete_lt, lookup_live by lia. split_and!; [done|done|lia].
        - rewrite decide_False by lia.
          rewrite list_lookup_delete_ge by lia.
          replace (Datatypes.S (k - 1)) with k by lia.
          rewrite lookup_live by lia. split_and!; [done|lia|lia]. }
      rewrite (fill_step _ _ _ _ Hpos Hlt). cbn. run. rewrite HS.
      do 2 f_equal. lia.
  - rewrite Hrun, length_range. f_equal. fold n. unfold pos.
    rewrite decide_False by lia.
    rewrite take_ge by lia. replace (n - 1 - (n - 1))%nat with 0%nat by lia.
    cbn. rewrite app_nil_r. f_equal. lia.
Qed.

Lemma remove_at_spec s index :
  Inv s → 0 ≤ index < _len s →
  ∃ x, live s !! Z.to_nat index = Some x
       ∧ remove_at index s = Return x (after_remove_at index s).
Proof.
  intros HInv Hi. pose proof HInv as [Hc Hn].
  destruct (arr_get_in s index) as (x & Hx & Hget); [lia|].
  exists x. split; [by rewrite lookup_live by lia|].
  unfold remove_at. mstep. rewrite decide_False by lia.
  mreturn Hget.
  pose proof (remove_at_loop s (Z.to_nat index) HInv ltac:(lia)) as Hloop.
  rewrite Z2Nat.id in Hloop by lia.
  mreturn Hloop. repeat mstep. done.
Qed.

(** *** [index_of], [contains], [remove] *)

Lemma index_of_loop_spec s o (m k : nat) :
  (k + m ≤ length (_arr s))%nat →
  index_of_loop o (seqZ (Z.of_nat k) (Z.of_nat m)) s
  = Return (let r := first_index o (take m (drop k (_arr s))) in
            if decide (r = -1) then -1 else Z.of_nat k + r) s.
Proof.
  revert k. induction m as [|m IH]; intros k Hk.
  - done.
  - destruct (lookup_lt_is_Some_2 (_arr s) k) as [x Hx]; [lia|].
    rewrite seqZ_nat_S, (drop_S _ _ _ Hx), firstn_cons, first_index_cons.
    assert (index_of_loop o (Z.of_nat k :: seqZ (Z.of_nat (Datatypes.S k)) (Z.of_nat m)) s
            = if decide (x = o) then Return (Z.of_nat k) s
              else index_of_loop o (seqZ (Z.of_nat (Datatypes.S k)) (Z.of_nat m)) s) as ->.
    { cbn [index_of_loop].
      destruct (decide (x = o)) as [Heq|Hne], o as [y|];
        mreturn (arr_get_nat s k x Hx).
      - by rewrite bool_decide_eq_true_2.
      - by rewrite bool_decide_eq_true_2.
      - by rewrite bool_decide_eq_false_2.
      - by rewrite bool_decide_eq_false_2. }
    cbn zeta. destruct (decide (x = o)).
    + rewrite decide_False by lia. f_equal. lia.
    + rewrite IH by lia. cbn zeta. f_equal.
      destruct (decide (first_index o (take m (drop (Datatypes.S k) (_arr s))) = -1)).
      * by rewrite decide_True.
      * pose proof (first_index_range o (take m (drop (Datatypes.S k) (_arr s)))).
        rewrite decide_False by lia. lia.
Qed.

Lemma index_of_spec s o :
  Inv s → index_of o s = Return (first_index o (live s)) s.
Proof.
  intros [Hc Hn]. unfold index_of. mstep. unfold range.
  pose proof (index_of_loop_spec s o (Z.to_nat (_len s)) 0) as Hl.
  rewrite Z2Nat.id in Hl by lia. change (Z.of_nat 0) with 0 in Hl.
  rewrite Hl by lia. cbn zeta.
  rewrite drop_0. fold (live s). f_equal.
  destruct (decide (first_index o (live s) = -1)); lia.
Qed.

Lemma contains_spec s o :
  Inv s → contains o s = Return (bool_decide (first_index o (live s) ≠ -1)) s.
Proof.
  intros HInv. unfold contains. mreturn (index_of_spec s o HInv). done.
Qed.

Lemma remove_spec s o :
  Inv s →
  remove o s = if decide (first_index o (live s) = -1) then Return false s
               else Return true (after_remove_at (first_index o (live s)) s).
Proof.
  intros HInv. unfold remove. mreturn (index_of_spec s o HInv).
  destruct (decide (first_index o (live s) = -1)) as [|Hne]; [done|].
  destruct (first_index_range o (live s)) as [|Hr]; [done|].
  rewrite length_live in Hr by done.
  destruct (remove_at_spec s (first_index o (live s)) HInv) as (x & _ & Hrm); [lia|].
  mreturn Hrm. done.
Qed.

(** *** [get], [set], [clear] *)

Lemma get_in s index :
  0 ≤ index < _capacity s → Inv s →
  ∃ x, _arr s !! Z.to_nat index = Some x ∧ get index s = Return x s.
Proof. intros Hi [Hc Hn]. apply arr_get_in. lia. Qed.

Lemma set_in s index v :
  0 ≤ index < _capacity s → Inv s →
  set index v s = Return tt (set_arr (<[Z.to_nat index := v]> (_arr s)) s).
Proof. intros Hi [Hc Hn]. apply arr_set_in. lia. Qed.

Lemma arr_set_fields s i v :
  _capacity (fields (arr_set i v s)) = _capacity s
  ∧ _len (fields (arr_set i v s)) = _len s
  ∧ length (_arr (fields (arr_set i v s))) = length (_arr s).
Proof.
  unfold arr_set. run. destruct (setitem (_arr s) i v) as [a'|] eqn:Hs; cbn; [|done].
  by rewrite (setitem_length _ _ _ _ Hs).
Qed.

Lemma clear_spec s : Inv s → clear s = Return tt (after_clear s).
Proof.
  intros [Hc Hn]. unfold clear, after_clear. mstep.
  set (n := Z.to_nat (_len s)).
  assert (for_ (range (_len s)) (λ i _, arr_set i None) tt s
          = Return tt (set_arr (replicate n None ++ drop n (_arr s)) s)) as Hloop.
  { loop_with (λ (k : nat) (_ : unit) (s0 : t T),
      s0 = set_arr (replicate k None ++ drop k (_arr s)) s)
      as ([] & s' & Hrun & ->).
    - by destruct s.
    - intros k i [] s0 [-> Hi]%lookup_range ->.
      eexists tt, _. split.
      + apply arr_set_in. cbn. rewrite length_app, length_replicate, length_drop. lia.
      + cbn. unfold set_arr. cbn. f_equal. rewrite Nat2Z.id.
        rewrite insert_app_r_alt by (rewrite length_replicate; lia).
        rewrite length_replicate, Nat.sub_diag.
        destruct (lookup_lt_is_Some_2 (_arr s) k) as [x Hx]; [lia|].
        rewrite (drop_S _ _ _ Hx). cbn.
        rewrite (cons_middle None), app_assoc, <- replicate_S_end. done.
    - rewrite Hrun, length_range. done. }
  mreturn Hloop. done.
Qed.

(** *** [__iter__] *)

Lemma iter_loop_spec (a : list (obj T)) (m k : nat) :
  (k + m ≤ length a)%nat →
  iter_loop a (seqZ (Z.of_nat k) (Z.of_nat m)) = (take m (drop k a), None).
Proof.
  revert k. induction m as [|m IH]; intros k Hk; [done|].
  destruct (lookup_lt_is_Some_2 a k) as [x Hx]; [lia|].
  rewrite seqZ_nat_S, (drop_S _ _ _ Hx). cbn [iter_loop].
  rewrite (getitem_nat _ _ _ Hx), IH by lia. done.
Qed.

Lemma iter_spec s : Inv s → __iter__ s = (live s, None).
Proof.
  intros [Hc Hn]. unfold __iter__, range.
  pose proof (iter_loop_spec (_arr s) (Z.to_nat (_len s)) 0) as Hl.
  rewrite Z2Nat.id in Hl by lia. change (Z.of_nat 0) with 0 in Hl.
  rewrite Hl by lia. by rewrite drop_0.
Qed.

(** *** The invariant *)

Lemma init_spec (capacity : Z) :
  0 ≤ capacity →
  __init__ (T:=T) capacity = inr (mk capacity 0 (replicate (Z.to_nat capacity) None)).
Proof. intros. unfold __init__. by rewrite decide_False by lia. Qed.

Lemma init_negative (capacity : Z) :
  capacity < 0 → __init__ (T:=T) capacity = inl ValueError.
Proof. intros. unfold __init__. by rewrite decide_True. Qed.

Lemma Inv_init (capacity : Z) s : __init__ capacity = inr s → Inv s.
Proof.
  unfold __init__. case_decide; [done|]. intros [= <-].
  split; cbn; [|lia]. rewrite length_none_list. lia.
Qed.

Lemma take_S_insert (l : list (obj T)) (n : nat) x :
  (n < length l)%nat → take (Datatypes.S n) (<[n := x]> l) = take n l ++ [x].
Proof.
  intros Hn. rewrite (take_S_r _ _ x) by by apply list_lookup_insert_eq.
  by rewrite take_insert_ge.
Qed.

Lemma Inv_after_add s x : Inv s → Inv (after_add x s).
Proof.
  intros [Hc Hn]. unfold after_add, grown.
  destruct (decide (_len s + 1 >= _capacity s)); split; cbn.
  - rewrite length_insert, length_app, length_take, length_replicate.
    case_decide; lia.
  - case_decide; lia.
  - rewrite length_insert. done.
  - lia.
Qed.

Lemma live_after_add s x : Inv s → live (after_add x s) = live s ++ [x].
Proof.
  intros [Hc Hn]. unfold after_add, live, grown.
  destruct (decide (_len s + 1 >= _capacity s)); cbn.
  - replace (Z.to_nat (_len s + 1)) with (Datatypes.S (Z.to_nat (_len s))) by lia.
    rewrite take_S_insert.
    + by rewrite take_app_le, take_take, Nat.min_id by (rewrite length_take; lia).
    + rewrite length_app, length_take, length_replicate. case_decide; lia.
  - replace (Z.to_nat (_len s + 1)) with (Datatypes.S (Z.to_nat (_len s))) by lia.
    rewrite take_S_insert by lia. done.
Qed.

Lemma length_delete_live s index :
  Inv s → 0 ≤ index < _len s →
  length (delete (Z.to_nat index) (live s)) = Z.to_nat (_len s - 1).
Proof.
  intros HInv Hi. pose proof (length_live s HInv) as Hl.
  rewrite length_delete by (apply lookup_lt_is_Some_2; lia). lia.
Qed.

Lemma Inv_after_remove_at s index :
  Inv s → 0 ≤ index < _len s → Inv (after_remove_at index s).
Proof.
  intros HInv Hi. split; cbn; [|lia]. rewrite length_delete_live by done. lia.
Qed.

Lemma live_after_remove_at s index :
  Inv s → 0 ≤ index < _len s →
  live (after_remove_at index s) = delete (Z.to_nat index) (live s).
Proof.
  intros HInv Hi. unfold live at 1. cbn. apply take_ge.
  rewrite length_delete_live by done. lia.
Qed.

Lemma Inv_after_clear s : Inv s → Inv (after_clear s).
Proof.
  intros [Hc Hn]. split; cbn; [|lia].
  rewrite length_app, length_replicate, length_drop. lia.
Qed.

Lemma Inv_arr_set s i v : Inv s → Inv (fields (arr_set i v s)).
Proof.
  intros [Hc Hn]. destruct (arr_set_fields s i v) as (Hc' & Hn' & Ha').
  unfold Inv. rewrite Hc', Hn', Ha'. done.
Qed.

(** Every call leaves the invariant in place, whether it returns or raises. *)
Lemma Inv_exec (c : call T) s : Inv s → Inv (exec c s).
Proof.
  intros HInv. destruct c as [x|i x|i x|i|o|]; cbn [exec].
  - rewrite add_spec by done. by apply Inv_after_add.
  - by apply Inv_arr_set.
  - unfold __setitem__. mstep. case_decide; [done|]. by apply Inv_arr_set.
  - destruct (decide (0 ≤ i < _len s)) as [Hi|Hi].
    + destruct (remove_at_spec s i HInv Hi) as (x & _ & ->). by apply Inv_after_remove_at.
    + rewrite remove_at_out_of_range by lia. done.
  - rewrite remove_spec by done. case_decide; [done|].
    destruct (first_index_range o (live s)) as [|Hr]; [done|].
    rewrite length_live in Hr by done. apply Inv_after_remove_at; [done|lia].
  - rewrite clear_spec by done. by apply Inv_after_clear.
Qed.

Lemma reachable_Inv s : reachable s → Inv s.
Proof.
  induction 1 as [c s Hinit|c s _ IH].
  - by eapply Inv_init.
  - by apply Inv_exec.
Qed.

(** *** A run of [add] calls *)

Lemma add_all_spec (xs : list (obj T)) s :
  Inv s →
  ∃ s', add_all xs s = Return tt s' ∧ Inv s'
        ∧ _len s' = _len s + Z.of_nat (length xs) ∧ live s' = live s ++ xs.
Proof.
  revert s. induction xs as [|x xs IH]; intros s HInv.
  - exists s. rewrite app_nil_r. split_and!; [done|done|cbn; lia|done].
  - destruct (IH (after_add x s)) as (s' & Hrun & HInv' & Hlen & Hlive).
    { by apply Inv_after_add. }
    exists s'. cbn [add_all]. mreturn (add_spec s x HInv).
    rewrite Hrun, Hlen, Hlive, live_after_add, <- app_assoc by done.
    split_and!; [done|done| |done].
    unfold after_add. case_decide; cbn; lia.
Qed.

Lemma add_all_size_get (capacity : Z) (xs : list (obj T)) :
  0 ≤ capacity →
  ∃ s0 s', __init__ capacity = inr s0
    ∧ add_all xs s0 = Return tt s'
    ∧ size s' = Return (Z.of_nat (length xs)) s'
    ∧ ∀ (k : nat) x, xs !! k = Some x → get (Z.of_nat k) s' = Return x s'.
Proof.
  intros Hc. set (s0 := mk (T:=T) capacity 0 (replicate (Z.to_nat capacity) None)).
  assert (Inv s0) as H0 by (by eapply Inv_init, init_spec).
  destruct (add_all_spec xs s0 H0) as (s' & Hrun & HInv & Hlen & Hlive).
  cbn in Hlen, Hlive. exists s0, s'. split_and!.
  - by apply init_spec.
  - done.
  - unfold size, gets. f_equal. lia.
  - intros k x Hk. pose proof (lookup_lt_Some _ _ _ Hk).
    apply arr_get_nat. rewrite <- lookup_live by lia.
    rewrite Hlive. unfold live, s0. cbn. done.
Qed.

(** *** Slots past the length *)

Lemma slack_empty_init (capacity : Z) s : __init__ capacity = inr s → slack_empty s.
Proof.
  unfold __init__. case_decide; [done|]. intros [= <-] k. cbn.
  rewrite length_none_list. intros Hk. apply lookup_replicate_2. lia.
Qed.

Lemma slack_empty_after_add s x : Inv s → slack_empty s → slack_empty (after_add x s).
Proof.
  intros [Hc Hn] Hs k. unfold after_add, grown.
  destruct (decide (_len s + 1 >= _capacity s)); cbn.
  - rewrite length_insert, length_app, length_take, length_replicate. intros Hk.
    rewrite list_lookup_insert_ne by lia.
    rewrite lookup_app_r by (rewrite length_take; lia).
    apply lookup_replicate_2. rewrite length_take. lia.
  - rewrite length_insert. intros Hk.
    rewrite list_lookup_insert_ne by lia. apply Hs. lia.
Qed.

Lemma slack_empty_after_remove_at s index :
  Inv s → 0 ≤ index < _len s → slack_empty (after_remove_at index s).
Proof.
  intros HInv Hi k. cbn. rewrite length_delete_live by done. lia.
Qed.

Lemma slack_empty_after_clear s : Inv s → slack_empty s → slack_empty (after_clear s).
Proof.
  intros [Hc Hn] Hs k. cbn.
  rewrite length_app, length_replicate, length_drop. intros Hk.
  destruct (decide (k < Z.to_nat (_len s))%nat).
  - rewrite lookup_app_l by (rewrite length_replicate; lia).
    by apply lookup_replicate_2.
  - rewrite lookup_app_r by (rewrite length_replicate; lia).
    rewrite length_replicate, lookup_drop. apply Hs. lia.
Qed.

Lemma slack_empty_arr_set_live s i v :
  Inv s → 0 ≤ i < _len s → slack_empty s → slack_empty (fields (arr_set i v s)).
Proof.
  intros [Hc Hn] Hi Hs k. rewrite arr_set_in by lia. cbn.
  rewrite length_insert. intros Hk.
  rewrite list_lookup_insert_ne by lia. by apply Hs.
Qed.

Lemma slack_empty_exec (c : call T) s :
  Inv s → ¬ raw_past_length c s → slack_empty s → slack_empty (exec c s).
Proof.
  intros HInv Hraw Hs. destruct c as [x|i x|i x|i|o|]; cbn [exec].
  - rewrite add_spec by done. by apply slack_empty_after_add.
  - apply slack_empty_arr_set_live; [done| |done].
    cbn in Hraw. destruct (decide (0 ≤ i < _len s)); [done|]. by destruct Hraw.
  - unfold __setitem__. mstep. case_decide; [done|].
    apply slack_empty_arr_set_live; [done|lia|done].
  - destruct (decide (0 ≤ i < _len s)) as [Hi|Hi].
    + destruct (remove_at_spec s i HInv Hi) as (x & _ & ->).
      by apply slack_empty_after_remove_at.
    + rewrite remove_at_out_of_range by lia. done.
  - rewrite remove_spec by done. case_decide; [done|].
    destruct (first_index_range o (live s)) as [|Hr]; [done|].
    rewrite length_live in Hr by done.
    apply slack_empty_after_remove_at; [done|lia].
  - rewrite clear_spec by done. by apply slack_empty_after_clear.
Qed.

Lemma reachable_checked_slack_empty s :
  reachable_checked s → Inv s ∧ slack_empty s.
Proof.
  induction 1 as [c s Hinit|c s _ [IH1 IH2] Hraw].
  - split; [by eapply Inv_init|by eapply slack_empty_init].
  - split; [by apply Inv_exec|by apply slack_empty_exec].
Qed.
End Facts.
End DynamicArrayFacts.


(** ** [MerabsDinamicArr] *)

Module MerabsFacts.
Import MerabsDinamicArr.
Section Facts.
Context {T : Type} `{EqDecision T}.
Implicit Types (s : t T) (x v o value : obj T) (i index : Z).

Lemma m_arr_get_nat s (k : nat) x :
  arr s !! k = Some x → arr_get (Z.of_nat k) s = Return x s.
Proof. intros H. unfold arr_get. run. by rewrite (getitem_nat _ _ _ H). Qed.

Lemma m_arr_get_in s i :
  0 ≤ i < Z.of_nat (length (arr s)) →
  ∃ x, arr s !! Z.to_nat i = Some x ∧ arr_get i s = Return x s.
Proof.
  intros Hi. destruct (lookup_lt_is_Some_2 (arr s) (Z.to_nat i)) as [x Hx]; [lia|].
  exists x. split; [done|]. rewrite <- (Z2Nat.id i) by lia. by apply m_arr_get_nat.
Qed.

Lemma m_arr_set_in s i v :
  0 ≤ i < Z.of_nat (length (arr s)) →
  arr_set i v s = Return tt (set_arr (<[Z.to_nat i := v]> (arr s)) s).
Proof. intros Hi. unfold arr_set. run. by rewrite setitem_in. Qed.

Lemma m_arr_set_above s i v :
  Z.of_nat (length (arr s)) ≤ i → arr_set i v s = Raise IndexError s.
Proof. intros Hi. unfold arr_set. run. by rewrite setitem_above. Qed.

Lemma Inv_Live s : Inv s → Live s.
Proof. by intros [_ ?]. Qed.
Local Hint Resolve Inv_Live : core.

Lemma m_length_live s : Live s → length (live s) = Z.to_nat (len s).
Proof. intros [Hn0 Hn]. unfold live. rewrite length_take. lia. Qed.

Lemma m_lookup_live s (k : nat) :
  (k < Z.to_nat (len s))%nat → live s !! k = arr s !! k.
Proof. intros. unfold live. by rewrite lookup_take_lt. Qed.

(** *** [_resize] and [add] *)

Lemma resize_loop s (n c : Z) :
  0 ≤ n ≤ Z.of_nat (length (arr s)) → n ≤ c →
  for_ (range n)
    (λ i new_arr, x ← arr_get i; index_or_raise (setitem new_arr i x))
    (none_list c) s
  = Return (take (Z.to_nat n) (arr s) ++ replicate (Z.to_nat c - Z.to_nat n) None) s.
Proof. apply (copy_loop arr). Qed.

Lemma resize_spec s : Inv s → _resize s = Return tt (after_resize s).
Proof.
  intros [Hc [Hn0 Hn]]. destruct s as [c n a]; cbn in *.
  unfold _resize, after_resize. do 2 mstep. cbn.
  destruct (decide (n >= c)) as [Hg|Hg]; [|done].
  repeat mstep. cbn.
  mcall resize_loop by (cbn; lia). done.
Qed.

Lemma Inv_after_resize s : Inv s → Inv (after_resize s).
Proof.
  intros [Hc [Hn0 Hn]]. unfold after_resize. case_decide; [|done].
  assert (length (take (Z.to_nat (len s)) (arr s)
                  ++ replicate (Z.to_nat (capacity s * 2) - Z.to_nat (len s)) None)
          = Z.to_nat (capacity s * 2)) as Hlen
    by (rewrite length_app, length_take, length_replicate; lia).
  split; unfold Live; cbn; rewrite Hlen; lia.
Qed.

Lemma m_add_spec s x :
  Inv s → 1 ≤ capacity s → add x s = Return tt (after_add x s).
Proof.
  intros HInv Hc1. pose proof HInv as [Hc [Hn0 Hn]].
  unfold add. mreturn (resize_spec s HInv). mstep.
  assert (len (after_resize s) = len s) as Hlen.
  { unfold after_resize. by case_decide. }
  assert (0 ≤ len s < Z.of_nat (length (arr (after_resize s)))) as Hslot.
  { unfold after_resize. case_decide; cbn; [|lia].
    rewrite length_app, length_take, length_replicate. lia. }
  rewrite Hlen. mreturn (m_arr_set_in (after_resize s) (len s) x Hslot).
  unfold after_add, set_arr, modify. cbn. by rewrite Hlen.
Qed.

(** With no slot at all the store is never enlarged: [0 * 2] is [0], and
    the write that follows is out of bounds. *)
Lemma m_add_capacity_0 s x :
  Inv s → capacity s = 0 → add x s = Raise IndexError s.
Proof.
  intros HInv Hc0. pose proof HInv as [Hc [Hn0 Hn]].
  destruct s as [c n a]; cbn in *. subst c.
  assert (n = 0) as -> by lia. destruct a; [|done]. done.
Qed.

Lemma Inv_m_after_add s x : Inv s → 1 ≤ capacity s → Inv (after_add x s).
Proof.
  intros HInv Hc1. pose proof (Inv_after_resize s HInv) as [Hc' [Hn0' Hn']].
  destruct HInv as [Hc [Hn0 Hn]].
  assert (len (after_resize s) = len s ∧ len s < capacity (after_resize s)) as [Hl Hlt].
  { unfold after_resize. case_decide; cbn; lia. }
  unfold after_add. split; unfold Live; cbn; rewrite length_insert; lia.
Qed.

Lemma m_live_after_add s x :
  Inv s → 1 ≤ capacity s → live (after_add x s) = live s ++ [x].
Proof.
  intros [Hc [Hn0 Hn]] Hc1. unfold after_add, after_resize, live. cbn.
  replace (Z.to_nat (len s + 1)) with (Datatypes.S (Z.to_nat (len s))) by lia.
  case_decide; cbn.
  - rewrite (take_S_r _ _ x).
    + rewrite take_insert_ge by lia.
      by rewrite take_app_le, take_take, Nat.min_id by (rewrite length_take; lia).
    + apply list_lookup_insert_eq.
      rewrite length_app, length_take, length_replicate. lia.
  - rewrite (take_S_r _ _ x).
    + by rewrite take_insert_ge by lia.
    + apply list_lookup_insert_eq. lia.
Qed.

Lemma m_capacity_after_add s x : capacity s ≤ capacity (after_add x s) ∨ capacity s < 0.
Proof. unfold after_add, after_resize. case_decide; cbn; lia. Qed.

(** *** [get] and [set_at] *)

Lemma m_get_spec s index :
  Live s → 0 ≤ index < len s →
  ∃ x, live s !! Z.to_nat index = Some x ∧ get index s = Return x s.
Proof.
  intros [Hn0 Hn] Hi. destruct (m_arr_get_in s index) as (x & Hx & Hget); [lia|].
  exists x. split; [by rewrite m_lookup_live by lia|].
  unfold get. mstep. by rewrite decide_False by lia.
Qed.

Lemma m_get_out_of_range s index :
  index < 0 ∨ index >= len s → get index s = Raise IndexError s.
Proof. intros. unfold get. mstep. by rewrite decide_True. Qed.

Lemma m_set_at_out_of_range s index v :
  index < 0 ∨ index >= len s → set_at index v s = Raise IndexError s.
Proof. intros. unfold set_at. mstep. by rewrite decide_True. Qed.

Lemma m_arr_set_fields s i v :
  capacity (fields (arr_set i v s)) = capacity s
  ∧ len (fields (arr_set i v s)) = len s
  ∧ length (arr (fields (arr_set i v s))) = length (arr s).
Proof.
  unfold arr_set. run. destruct (setitem (arr s) i v) as [a'|] eqn:Hs; cbn; [|done].
  by rewrite (setitem_length _ _ _ _ Hs).
Qed.

(** *** [remove_at] *)

Lemma m_remove_at_out_of_range s index :
  index < 0 ∨ index >= len s → remove_at index s = Raise IndexError s.
Proof. intros. unfold remove_at. mstep. by rewrite decide_True. Qed.

(** One iteration of the shifting loop: slot [idx + k] receives the element
    of slot [idx + k + 1]. *)
Lemma shift_step (a : list (obj T)) (idx k : nat) x :
  a !! (idx + k + 1)%nat = Some x →
  let cur := take idx a ++ take k (drop (Datatypes.S idx) a) ++ drop (idx + k) a in
  length cur = length a
  ∧ cur !! (idx + k + 1)%nat = Some x
  ∧ <[(idx + k)%nat := x]> cur
    = take idx a ++ take (Datatypes.S k) (drop (Datatypes.S idx) a)
      ++ drop (idx + Datatypes.S k) a.
Proof.
  intros Hx. pose proof (lookup_lt_Some _ _ _ Hx) as Hlt. cbn zeta.
  assert (length (take idx a) = idx) as HP by (rewrite length_take; lia).
  assert (length (take k (drop (Datatypes.S idx) a)) = k) as HQ
    by (rewrite length_take, length_drop; lia).
  destruct (lookup_lt_is_Some_2 a (idx + k)) as [y Hy]; [lia|].
  split_and!.
  - rewrite !length_app, HP, HQ, length_drop. lia.
  - rewrite lookup_app_r by lia. rewrite lookup_app_r by lia.
    rewrite HP, HQ, lookup_drop. rewrite <- Hx. f_equal. lia.
  - rewrite insert_app_r_alt by lia. rewrite insert_app_r_alt by lia.
    rewrite HP, HQ. replace (idx + k - idx - k)%nat with 0%nat by lia.
    rewrite (drop_S _ _ _ Hy). cbn.
    rewrite (take_S_r _ _ x) by (rewrite lookup_drop; rewrite <- Hx; f_equal; lia).
    rewrite <- (app_assoc _ [x]). cbn. do 4 f_equal. lia.
Qed.

Lemma shift_loop s (idx : nat) :
  Live s → (idx < Z.to_nat (len s))%nat →
  for_ (range2 (Z.of_nat idx) (len s - 1))
    (λ i _, x ← arr_get (i + 1); arr_set i x) tt s
  = Return tt (set_arr (take idx (arr s)
                        ++ take (Z.to_nat (len s) - 1 - idx) (drop (Datatypes.S idx) (arr s))
                        ++ drop (Z.to_nat (len s) - 1) (arr s)) s).
Proof.
  intros [Hn0 Hn] Hidx.
  loop_with (λ (k : nat) (_ : unit) (s0 : t T),
    s0 = set_arr (take idx (arr s) ++ take k (drop (Datatypes.S idx) (arr s))
                  ++ drop (idx + k) (arr s)) s)
    as ([] & s' & Hrun & ->).
  - unfold set_arr. rewrite take_0, Nat.add_0_r. cbn. rewrite take_drop. by destruct s.
  - intros k i [] s0 [-> Hk]%lookup_seqZ ->.
    destruct (lookup_lt_is_Some_2 (arr s) (idx + k + 1)) as [x Hx]; [lia|].
    destruct (shift_step (arr s) idx k x Hx) as (Hlen & Hcur & Hins).
    eexists tt, _. split.
    + replace (Z.of_nat idx + Z.of_nat k + 1) with (Z.of_nat (idx + k + 1)) by lia.
      mreturn (m_arr_get_nat (set_arr _ s) _ _ Hcur).
      apply m_arr_set_in. cbn. rewrite Hlen. lia.
    + unfold set_arr. cbn. f_equal.
      replace (Z.to_nat (Z.of_nat idx + Z.of_nat k)) with (idx + k)%nat by lia. done.
  - rewrite Hrun. unfold range2. rewrite length_seqZ.
    replace (Z.to_nat (len s - 1 - Z.of_nat idx))
      with (Z.to_nat (len s) - 1 - idx)%nat by lia.
    replace (idx + (Z.to_nat (len s) - 1 - idx))%nat
      with (Z.to_nat (len s) - 1)%nat by lia.
    done.
Qed.

Lemma m_remove_at_spec s index :
  Live s → 0 ≤ index < len s →
  remove_at index s = Return None (after_remove_at index s).
Proof.
  intros HInv Hi. pose proof HInv as [Hn0 Hn].
  unfold remove_at. mstep. rewrite decide_False by lia.
  pose proof (shift_loop s (Z.to_nat index) HInv ltac:(lia)) as Hloop.
  rewrite Z2Nat.id in Hloop by lia.
  mreturn Hloop. repeat mstep. cbn.
  set (n := Z.to_nat (len s)) in *. set (idx := Z.to_nat index) in *.
  assert (length (take idx (arr s)) = idx) as HP by (rewrite length_take; lia).
  assert (length (take (n - 1 - idx) (drop (Datatypes.S idx) (arr s))) = (n - 1 - idx)%nat) as HQ
    by (rewrite length_take, length_drop; lia).
  destruct (lookup_lt_is_Some_2 (arr s) (n - 1)) as [y Hy]; [lia|].
  mcall m_arr_set_in by
    (cbn; rewrite !length_app, HP, HQ, length_drop; lia).
  repeat mstep. unfold after_remove_at, set_arr, set_len, modify, mret, M_ret. cbn.
  do 2 f_equal.
  replace (Z.to_nat (len s - 1)) with (idx + (n - 1 - idx))%nat by lia.
  rewrite insert_app_r_alt by lia. rewrite insert_app_r_alt by lia.
  rewrite HP, HQ. replace (idx + (n - 1 - idx) - idx - (n - 1 - idx))%nat with 0%nat by lia.
  rewrite (drop_S _ _ _ Hy). cbn. replace (Datatypes.S (n - 1)) with n by lia.
  rewrite app_assoc. f_equal.
  unfold live. fold n. fold idx. rewrite delete_take_drop, take_take.
  replace (idx `min` n)%nat with idx by lia. f_equal.
  rewrite take_drop_commute. do 2 f_equal. lia.
Qed.

Lemma m_length_after_remove_at s index :
  Live s → 0 ≤ index < len s →
  length (arr (after_remove_at index s)) = length (arr s).
Proof.
  intros HL Hi. pose proof (m_length_live s HL) as Hl. destruct HL as [Hn0 Hn].
  cbn. rewrite length_app, length_delete by (apply lookup_lt_is_Some_2; lia).
  cbn. rewrite length_drop. lia.
Qed.

Lemma Live_m_after_remove_at s index :
  Live s → 0 ≤ index < len s → Live (after_remove_at index s).
Proof.
  intros HL Hi. unfold Live. rewrite m_length_after_remove_at by done.
  destruct HL. cbn. lia.
Qed.

Lemma Inv_m_after_remove_at s index :
  Inv s → 0 ≤ index < len s → Inv (after_remove_at index s).
Proof.
  intros [Hc HL] Hi. split; [|by apply Live_m_after_remove_at].
  by rewrite m_length_after_remove_at.
Qed.

Lemma m_live_after_remove_at s index :
  Live s → 0 ≤ index < len s →
  live (after_remove_at index s) = delete (Z.to_nat index) (live s).
Proof.
  intros HInv Hi. pose proof (m_length_live s HInv) as Hl.
  unfold live at 1. cbn. apply take_app_length'.
  rewrite length_delete by (apply lookup_lt_is_Some_2; lia). lia.
Qed.

(** *** [index_of], [contains], [remove] *)

Lemma m_index_of_loop_spec s o (m k : nat) :
  (k + m ≤ length (arr s))%nat →
  index_of_loop o (seqZ (Z.of_nat k) (Z.of_nat m)) s
  = Return (let r := first_index o (take m (drop k (arr s))) in
            if decide (r = -1) then -1 else Z.of_nat k + r) s.
Proof.
  revert k. induction m as [|m IH]; intros k Hk.
  - done.
  - destruct (lookup_lt_is_Some_2 (arr s) k) as [x Hx]; [lia|].
    rewrite seqZ_nat_S, (drop_S _ _ _ Hx), firstn_cons, first_index_cons.
    cbn [index_of_loop]. mreturn (m_arr_get_nat s k x Hx). cbn zeta.
    destruct (decide (x = o)) as [Heq|Hne].
    + rewrite bool_decide_eq_true_2, decide_False by (done || lia).
      unfold mret, M_ret. f_equal. lia.
    + rewrite bool_decide_eq_false_2, IH by (done || lia). cbn zeta. f_equal.
      pose proof (first_index_range o (take m (drop (Datatypes.S k) (arr s)))).
      repeat case_decide; lia.
Qed.

Lemma m_index_of_spec s o :
  Live s → index_of o s = Return (first_index o (live s)) s.
Proof.
  intros [Hn0 Hn]. unfold index_of. mstep. unfold range.
  pose proof (m_index_of_loop_spec s o (Z.to_nat (len s)) 0) as Hl.
  rewrite Z2Nat.id in Hl by lia. change (Z.of_nat 0) with 0 in Hl.
  rewrite Hl by lia. cbn zeta.
  rewrite drop_0. fold (live s). f_equal.
  destruct (decide (first_index o (live s) = -1)); lia.
Qed.

Lemma m_contains_spec s o :
  Live s → contains o s = Return (bool_decide (first_index o (live s) ≠ -1)) s.
Proof.
  intros HInv. unfold contains. mreturn (m_index_of_spec s o HInv). done.
Qed.

Lemma m_remove_spec s o :
  Live s →
  remove o s = if decide (first_index o (live s) = -1) then Return false s
               else Return true (after_remove_at (first_index o (live s)) s).
Proof.
  intros HInv. unfold remove. mreturn (m_index_of_spec s o HInv).
  destruct (decide (first_index o (live s) = -1)) as [Heq|Hne].
  - by rewrite decide_False by (intros ?; done).
  - rewrite decide_True by done.
    destruct (first_index_range o (live s)) as [|Hr]; [done|].
    rewrite m_length_live in Hr by done.
    assert (0 ≤ first_index o (live s) < len s) as Hr' by lia.
    mreturn (m_remove_at_spec s (first_index o (live s)) HInv Hr'). done.
Qed.

(** *** [__iter__] *)

Lemma m_iter_loop_spec (a : list (obj T)) (m k : nat) :
  (k + m ≤ length a)%nat →
  iter_loop a (seqZ (Z.of_nat k) (Z.of_nat m))
  = (filter (λ x, x ≠ None) (take m (drop k a)), None).
Proof.
  revert k. induction m as [|m IH]; intros k Hk; [done|].
  destruct (lookup_lt_is_Some_2 a k) as [x Hx]; [lia|].
  rewrite seqZ_nat_S, (drop_S _ _ _ Hx). cbn [iter_loop].
  rewrite (getitem_nat _ _ _ Hx), IH by lia. cbn [fst snd take].
  destruct (decide (x ≠ None)).
  - by rewrite bool_decide_eq_true_2, filter_cons_True.
  - by rewrite bool_decide_eq_false_2, filter_cons_False.
Qed.

Lemma m_iter_spec s : Live s → __iter__ s = (filter (λ x, x ≠ None) (live s), None).
Proof.
  intros [Hn0 Hn]. unfold __iter__, range.
  pose proof (m_iter_loop_spec (arr s) (Z.to_nat (len s)) 0) as Hl.
  rewrite Z2Nat.id in Hl by lia. change (Z.of_nat 0) with 0 in Hl.
  rewrite Hl by lia. by rewrite drop_0.
Qed.

(** *** The invariant *)

Lemma Inv_m_init (c : Z) s : 0 ≤ c → __init__ c = inr s → Inv s.
Proof.
  intros Hc [= <-]. split; unfold Live; cbn; rewrite length_none_list; lia.
Qed.

Lemma Inv_m_arr_set s i v : Inv s → Inv (fields (arr_set i v s)).
Proof.
  intros [Hc [Hn0 Hn]]. destruct (m_arr_set_fields s i v) as (Hc' & Hn' & Ha').
  unfold Inv, Live. rewrite Hc', Hn', Ha'. done.
Qed.

(** Every call leaves the invariant in place, whether it returns or raises. *)
Lemma Inv_m_exec (c : call T) s : Inv s → Inv (exec c s).
Proof.
  intros HInv. pose proof HInv as [Hc [Hn0 Hn]]. destruct c as [x|i x|i|o]; cbn [exec].
  - destruct (decide (capacity s = 0)) as [Hc0|Hc0].
    + by rewrite m_add_capacity_0.
    + rewrite m_add_spec by (done || lia). apply Inv_m_after_add; [done|lia].
  - unfold set_at. mstep. case_decide; [done|]. by apply Inv_m_arr_set.
  - destruct (decide (0 ≤ i < len s)) as [Hi|Hi].
    + rewrite m_remove_at_spec by done. by apply Inv_m_after_remove_at.
    + by rewrite m_remove_at_out_of_range by lia.
  - rewrite m_remove_spec by done. case_decide; [done|].
    destruct (first_index_range o (live s)) as [|Hr]; [done|].
    rewrite m_length_live in Hr by done. apply Inv_m_after_remove_at; [done|lia].
Qed.

(** The capacity never shrinks. *)
Lemma m_capacity_exec (c : call T) s : Inv s → capacity s ≤ capacity (exec c s).
Proof.
  intros HInv. pose proof HInv as [Hc [Hn0 Hn]]. destruct c as [x|i x|i|o]; cbn [exec].
  - destruct (decide (capacity s = 0)) as [Hc0|Hc0].
    + by rewrite m_add_capacity_0.
    + rewrite m_add_spec by (done || lia). cbn [fields].
      destruct (m_capacity_after_add s x); lia.
  - unfold set_at. mstep. case_decide; [done|].
    destruct (m_arr_set_fields s i x) as (-> & _). done.
  - destruct (decide (0 ≤ i < len s)) as [Hi|Hi].
    + by rewrite m_remove_at_spec by done.
    + by rewrite m_remove_at_out_of_range by lia.
  - rewrite m_remove_spec by done. by case_decide.
Qed.

Lemma m_reachable_from_Inv s0 s :
  Inv s0 → reachable_from s0 s → Inv s ∧ capacity s0 ≤ capacity s.
Proof.
  intros H0. induction 1 as [|c s _ [IH1 IH2]].
  - done.
  - split; [by apply Inv_m_exec|]. pose proof (m_capacity_exec c s IH1). lia.
Qed.

(** An object built with a negative capacity has no slot, and keeps none:
    [add] doubles the negative capacity and then fails to write. *)
Lemma m_exec_negative (c : call T) s :
  capacity s < 0 → len s = 0 → arr s = [] →
  capacity (exec c s) < 0 ∧ len (exec c s) = 0 ∧ arr (exec c s) = [].
Proof.
  destruct s as [cap n a]. cbn. intros Hcap -> ->.
  destruct c as [x|i x|i|o]; cbn [exec].
  - unfold add, _resize. repeat mstep. cbn.
    rewrite decide_True by lia. repeat mstep. cbn.
    replace (none_list (T:=T) (cap * 2)) with (@nil (obj T))
      by (unfold none_list; by replace (Z.to_nat (cap * 2)) with 0%nat by lia).
    change (range 0) with (@nil Z). run.
    rewrite m_arr_set_above by (cbn; lia). cbn. split_and!; [lia|done|done].
  - unfold set_at. mstep. by rewrite decide_True by (cbn; lia).
  - by rewrite m_remove_at_out_of_range by (cbn; lia).
  - done.
Qed.

(** In every state of an object, whatever the capacity it was built with,
    the live elements lie within the backing list. *)
Lemma m_reachable_Live s : reachable s → Live s.
Proof.
  intros (c & s0 & [= <-] & Hreach).
  assert (Inv s ∨ (capacity s < 0 ∧ len s = 0 ∧ arr s = [])) as [H1|(_ & Hl & Ha)].
  { induction Hreach as [|call s _ [IH|(Hc & Hl & Ha)]].
    - destruct (decide (0 ≤ c)).
      + left. by apply (Inv_m_init c).
      + right. cbn. split_and!; [lia|done|].
        unfold none_list. by replace (Z.to_nat c) with 0%nat by lia.
    - left. by apply Inv_m_exec.
    - right. by apply m_exec_negative. }
  - by apply Inv_Live.
  - unfold Live. rewrite Hl, Ha. cbn. lia.
Qed.

(** *** A run of [add] calls *)

Lemma m_add_all_spec (xs : list (obj T)) s :
  Inv s → 1 ≤ capacity s →
  ∃ s', add_all xs s = Return tt s' ∧ Inv s' ∧ 1 ≤ capacity s'
        ∧ len s' = len s + Z.of_nat (length xs) ∧ live s' = live s ++ xs.
Proof.
  revert s. induction xs as [|x xs IH]; intros s HInv Hc1.
  - exists s. rewrite app_nil_r. split_and!; [done|done|done|cbn; lia|done].
  - destruct (IH (after_add x s)) as (s' & Hrun & HInv' & Hc1' & Hlen & Hlive).
    { by apply Inv_m_after_add. }
    { destruct (m_capacity_after_add s x); lia. }
    exists s'. cbn [add_all]. mreturn (m_add_spec s x HInv Hc1).
    rewrite Hrun, Hlen, Hlive, m_live_after_add, <- app_assoc by done.
    split_and!; [done|done|done| |done]. cbn. lia.
Qed.

(** *** An object built with capacity 0 *)

(** No call changes the fields of an object that has no slot. *)
Lemma m_exec_capacity_0 (c : call T) : exec c (mk 0 0 []) = mk 0 0 [].
Proof. destruct c as [x|i x|i|o]; cbn [exec]; [done| | |done].
  - unfold set_at. mstep. by rewrite decide_True by (cbn; lia).
  - by rewrite m_remove_at_out_of_range by (cbn; lia).
Qed.

Lemma m_reachable_capacity_0 s : reachable_from (mk 0 0 []) s → s = mk 0 0 [].
Proof.
  induction 1 as [|c s _ ->]; [done|]. apply m_exec_capacity_0.
Qed.

Lemma m_add_all_size_get (c : Z) (xs : list (obj T)) :
  1 ≤ c →
  ∃ s0 s', __init__ c = inr s0
    ∧ add_all xs s0 = Return tt s'
    ∧ size s' = Return (Z.of_nat (length xs)) s'
    ∧ ∀ (k : nat) x, xs !! k = Some x → get (Z.of_nat k) s' = Return x s'.
Proof.
  intros Hc. set (s0 := mk (T:=T) c 0 (none_list c)).
  assert (Inv s0) as H0 by (apply (Inv_m_init c); [lia|done]).
  destruct (m_add_all_spec xs s0 H0 Hc) as (s' & Hrun & HInv & _ & Hlen & Hlive).
  cbn in Hlen, Hlive. exists s0, s'. split_and!.
  - done.
  - done.
  - unfold size, gets. f_equal. lia.
  - intros k x Hk. pose proof (lookup_lt_Some _ _ _ Hk).
    destruct (m_get_spec s' (Z.of_nat k) (Inv_Live _ HInv)) as (y & Hy & ->); [lia|].
    rewrite Nat2Z.id, Hlive in Hy. unfold live, s0 in Hy. cbn in Hy.
    change (Z.to_nat 0) with 0%nat in Hy. rewrite take_0 in Hy. cbn in Hy. congruence.
Qed.
End Facts.
End MerabsFacts.

(** * The demo runs of the two files *)

(** The run at the end of dynamic_array.py: the integers 0 to 9 added to an
    array of the default capacity 16, then [remove_at(3)]. *)
Example dynamic_array_demo :
  ∃ s0 s1 s2 : DynamicArray.t Z,
    DynamicArray.__init__ 16 = inr s0
    ∧ DynamicArray.add_all (Some <$> seqZ 0 10) s0 = Return tt s1
    ∧ DynamicArray.size s1 = Return 10 s1
    ∧ DynamicArray.get 5 s1 = Return (Some 5) s1
    ∧ DynamicArray.remove_at 3 s1 = Return (Some 3) s2
    ∧ DynamicArray.__iter__ s2 = (Some <$> [0; 1; 2; 4; 5; 6; 7; 8; 9], None)
    ∧ DynamicArray.size s2 = Return 9 s2
    ∧ DynamicArray.contains (Some 5) s2 = Return true s2
    ∧ DynamicArray.contains (Some 100) s2 = Return false s2.
Proof.
  eexists _, _, _. split; [reflexivity|].
  split; [by vm_compute|]. split; [by vm_compute|]. split; [by vm_compute|].
  split; [by vm_compute|]. by vm_compute.
Qed.

(** Test 11 of my_dinamic_arr.py: from capacity 2, the capacity is 2, 4 and 8
    after 2, 4 and 8 elements, and 16 after 10. *)
Example merabs_growth_demo :
  ∃ s0 : MerabsDinamicArr.t Z,
    MerabsDinamicArr.__init__ 2 = inr s0
    ∧ MerabsDinamicArr.capacity
        (fields (MerabsDinamicArr.add_all (Some <$> seqZ 0 2) s0)) = 2
    ∧ MerabsDinamicArr.capacity
        (fields (MerabsDinamicArr.add_all (Some <$> seqZ 0 4) s0)) = 4
    ∧ MerabsDinamicArr.capacity
        (fields (MerabsDinamicArr.add_all (Some <$> seqZ 0 8) s0)) = 8
    ∧ MerabsDinamicArr.capacity
        (fields (MerabsDinamicArr.add_all (Some <$> seqZ 0 10) s0)) = 16
    ∧ MerabsDinamicArr.size
        (fields (MerabsDinamicArr.add_all (Some <$> seqZ 0 10) s0))
      = Return 10 (fields (MerabsDinamicArr.add_all (Some <$> seqZ 0 10) s0)).
Proof. eexists. split; [reflexivity|]. by vm_compute. Qed.

(** * The claims of the specification, on both classes *)

(** C1, the part that holds: on a fresh [MerabsDinamicArr] with at least one
    slot, as on every fresh [DynamicArray] ([DynamicArrayFacts.add_all_size_get]),
    N calls of [add] leave [size() = N] and [get(i)] the i-th added value. *)
Lemma add_all_size_get_both {T} `{EqDecision T} (c : Z) (xs : list (obj T)) :
  1 ≤ c →
  (∃ s0 s', DynamicArray.__init__ c = inr s0
     ∧ DynamicArray.add_all xs s0 = Return tt s'
     ∧ DynamicArray.size s' = Return (Z.of_nat (length xs)) s'
     ∧ ∀ (k : nat) x, xs !! k = Some x →
         DynamicArray.get (Z.of_nat k) s' = Return x s')
  ∧ (∃ s0 s', MerabsDinamicArr.__init__ c = inr s0
     ∧ MerabsDinamicArr.add_all xs s0 = Return tt s'
     ∧ MerabsDinamicArr.size s' = Return (Z.of_nat (length xs)) s'
     ∧ ∀ (k : nat) x, xs !! k = Some x →
         MerabsDinamicArr.get (Z.of_nat k) s' = Return x s').
Proof.
  intros Hc. split.
  - apply DynamicArrayFacts.add_all_size_get. lia.
  - by apply MerabsFacts.m_add_all_size_get.
Qed.

(** C1, at the failing input: a [MerabsDinamicArr] built with capacity 0
    raises [IndexError] on the first [add], and its size is 0 after the call,
    not 1; a [DynamicArray] built with capacity 0 takes the element. *)
Theorem merabs_add_all_capacity_0 :
  (∃ s0 : MerabsDinamicArr.t Z,
     MerabsDinamicArr.__init__ 0 = inr s0
     ∧ MerabsDinamicArr.add_all [Some 7] s0 = Raise IndexError s0
     ∧ MerabsDinamicArr.size s0 = Return 0 s0)
  ∧ (∃ s0 s' : DynamicArray.t Z,
       DynamicArray.__init__ 0 = inr s0
       ∧ DynamicArray.add_all [Some 7] s0 = Return tt s'
       ∧ DynamicArray.size s' = Return 1 s'
       ∧ DynamicArray.get 0 s' = Return (Some 7) s').
Proof.
  split.
  - exists (MerabsDinamicArr.mk 0 0 []). split; [reflexivity|]. by vm_compute.
  - exists (DynamicArray.mk 0 0 []), (DynamicArray.mk 1 1 [Some 7]).
    split; [reflexivity|]. by vm_compute.
Qed.

(** C2, counterexample: a fresh [MerabsDinamicArr] of capacity 1 has length
    0, hence [length + 1 >= capacity], yet [add] keeps the capacity at 1. *)
Lemma merabs_add_keeps_capacity_1 :
  let s := MerabsDinamicArr.mk (T:=Z) 1 0 [None] in
  MerabsDinamicArr.Inv s
  ∧ MerabsDinamicArr.len s + 1 >= MerabsDinamicArr.capacity s
  ∧ MerabsDinamicArr.add (Some 7) s = Return tt (MerabsDinamicArr.mk 1 1 [Some 7])
  ∧ MerabsDinamicArr.capacity (fields (MerabsDinamicArr.add (Some 7) s)) ≠ 2.
Proof.
  cbn zeta. split_and!.
  - repeat split; cbn; lia.
  - cbn. lia.
  - by vm_compute.
  - vm_compute. intros [=].
Qed.

(** C2, amended: [DynamicArray.add] grows the store exactly when
    [length + 1 >= capacity], to 1 when the capacity is 0 and to its double
    otherwise; [MerabsDinamicArr.add], on a store with at least one slot,
    grows it exactly when [length >= capacity], to its double.  In both, the
    first [length] elements are kept in order in a store of the new capacity
    and the new element is written at slot [length].  Adding the first
    element to a [DynamicArray] of capacity 1 raises the capacity to 2. *)
Theorem add_growth_rule {T} `{EqDecision T}
    (d : DynamicArray.t T) (m : MerabsDinamicArr.t T) (x : obj T) :
  DynamicArray.Inv d → MerabsDinamicArr.Inv m → 1 ≤ MerabsDinamicArr.capacity m →
  (∃ d', DynamicArray.add x d = Return tt d'
     ∧ DynamicArray._capacity d'
       = (if decide (DynamicArray._len d + 1 >= DynamicArray._capacity d)
          then (if decide (DynamicArray._capacity d = 0) then 1
                else DynamicArray._capacity d * 2)
          else DynamicArray._capacity d)
     ∧ Z.of_nat (length (DynamicArray._arr d')) = DynamicArray._capacity d'
     ∧ take (Z.to_nat (DynamicArray._len d)) (DynamicArray._arr d')
       = take (Z.to_nat (DynamicArray._len d)) (DynamicArray._arr d)
     ∧ DynamicArray._arr d' !! Z.to_nat (DynamicArray._len d) = Some x
     ∧ DynamicArray._len d' = DynamicArray._len d + 1
     ∧ (DynamicArray._capacity d = 1 → DynamicArray._len d = 0 →
        DynamicArray._capacity d' = 2))
  ∧ (∃ m', MerabsDinamicArr.add x m = Return tt m'
     ∧ MerabsDinamicArr.capacity m'
       = (if decide (MerabsDinamicArr.len m >= MerabsDinamicArr.capacity m)
          then MerabsDinamicArr.capacity m * 2
          else MerabsDinamicArr.capacity m)
     ∧ Z.of_nat (length (MerabsDinamicArr.arr m')) = MerabsDinamicArr.capacity m'
     ∧ take (Z.to_nat (MerabsDinamicArr.len m)) (MerabsDinamicArr.arr m')
       = take (Z.to_nat (MerabsDinamicArr.len m)) (MerabsDinamicArr.arr m)
     ∧ MerabsDinamicArr.arr m' !! Z.to_nat (MerabsDinamicArr.len m) = Some x
     ∧ MerabsDinamicArr.len m' = MerabsDinamicArr.len m + 1).
Proof.
  intros Hd Hm Hc1. split.
  - exists (DynamicArray.after_add x d).
    pose proof (DynamicArrayFacts.Inv_after_add d x Hd) as [Hc' Hn'].
    pose proof (DynamicArrayFacts.live_after_add d x Hd) as Hlive.
    assert (DynamicArray._len (DynamicArray.after_add x d) = DynamicArray._len d + 1) as Hlen.
    { unfold DynamicArray.after_add. by case_decide. }
    assert (DynamicArray._capacity (DynamicArray.after_add x d)
            = if decide (DynamicArray._len d + 1 >= DynamicArray._capacity d)
              then (if decide (DynamicArray._capacity d = 0) then 1
                    else DynamicArray._capacity d * 2)
              else DynamicArray._capacity d) as Hcap.
    { unfold DynamicArray.after_add, DynamicArray.grown. by case_decide. }
    destruct Hd as [Hc Hn].
    assert (length (DynamicArray.live d) = Z.to_nat (DynamicArray._len d)) as Hll.
    { unfold DynamicArray.live. rewrite length_take. lia. }
    unfold DynamicArray.live in Hlive, Hll. rewrite Hlen in Hlive.
    split_and!.
    + by apply DynamicArrayFacts.add_spec.
    + done.
    + lia.
    + apply (f_equal (take (Z.to_nat (DynamicArray._len d)))) in Hlive.
      rewrite take_take in Hlive.
      rewrite take_app_length' in Hlive by done.
      rewrite <- Hlive. f_equal. lia.
    + apply (f_equal (λ l, l !! Z.to_nat (DynamicArray._len d))) in Hlive.
      rewrite lookup_app_r, Hll, Nat.sub_diag in Hlive by lia. cbn in Hlive.
      rewrite <- Hlive. symmetry. apply lookup_take_lt. lia.
    + done.
    + intros H1 H0. rewrite Hcap, H1, H0. done.
  - exists (MerabsDinamicArr.after_add x m).
    pose proof (MerabsFacts.Inv_m_after_add m x Hm Hc1) as [Hc' Hn'].
    pose proof (MerabsFacts.m_live_after_add m x Hm Hc1) as Hlive.
    destruct Hm as [Hc [Hn0 Hn]].
    assert (length (MerabsDinamicArr.live m) = Z.to_nat (MerabsDinamicArr.len m)) as Hll.
    { unfold MerabsDinamicArr.live. rewrite length_take. lia. }
    unfold MerabsDinamicArr.live in Hlive, Hll. cbn [MerabsDinamicArr.after_add MerabsDinamicArr.len] in Hlive.
    split_and!.
    + apply MerabsFacts.m_add_spec; [by repeat split|done].
    + unfold MerabsDinamicArr.after_add, MerabsDinamicArr.after_resize. by case_decide.
    + lia.
    + apply (f_equal (take (Z.to_nat (MerabsDinamicArr.len m)))) in Hlive.
      rewrite take_take in Hlive.
      rewrite take_app_length' in Hlive by done.
      rewrite <- Hlive. f_equal. lia.
    + apply (f_equal (λ l, l !! Z.to_nat (MerabsDinamicArr.len m))) in Hlive.
      rewrite lookup_app_r, Hll, Nat.sub_diag in Hlive by lia. cbn in Hlive.
      rewrite <- Hlive. symmetry. apply lookup_take_lt. lia.
    + done.
Qed.

Lemma add_growth_rule_witness :
  DynamicArray.Inv (DynamicArray.mk (T:=Z) 1 0 [None])
  ∧ MerabsDinamicArr.Inv (MerabsDinamicArr.mk (T:=Z) 1 0 [None])
  ∧ (∃ d', DynamicArray.add (Some 7) (DynamicArray.mk 1 0 [None]) = Return tt d'
       ∧ DynamicArray._capacity d' = 2)
  ∧ (∃ m', MerabsDinamicArr.add (Some 7) (MerabsDinamicArr.mk 1 0 [None]) = Return tt m'
       ∧ MerabsDinamicArr.capacity m' = 1).
Proof.
  assert (DynamicArray.Inv (DynamicArray.mk (T:=Z) 1 0 [None])) as Hd
    by (repeat split; cbn; lia).
  assert (MerabsDinamicArr.Inv (MerabsDinamicArr.mk (T:=Z) 1 0 [None])) as Hm
    by (repeat split; cbn; lia).
  destruct (add_growth_rule (DynamicArray.mk 1 0 [None])
              (MerabsDinamicArr.mk 1 0 [None]) (Some 7) Hd Hm)
    as [(d' & Hadd & Hcap & _) (m' & Hadd' & Hcap' & _)]; [cbn; lia|].
  split_and!; [done|done|by exists d'|by exists m'].
Defined.

(** C3, counterexample: on a fresh [MerabsDinamicArr] of capacity 1,
    [add(7)] followed by [remove_at(size() - 1)] returns [None], not 7. *)
Lemma merabs_remove_at_returns_None :
  let s := MerabsDinamicArr.mk (T:=Z) 1 0 [None] in
  MerabsDinamicArr.Inv s
  ∧ MerabsDinamicArr.add_then_remove_last (Some 7) s = Return None s
  ∧ (None : obj Z) ≠ Some 7.
Proof. cbn zeta. split_and!; [repeat split; cbn; lia|by vm_compute|done]. Qed.

(** C3, amended: [add(x)] followed by [remove_at(size() - 1)] restores the
    size and the live elements the array had before the [add]; on a
    [DynamicArray] the call of [remove_at] returns [x], on a
    [MerabsDinamicArr] with at least one slot it returns [None]. *)
Theorem add_then_remove_last_restores {T} `{EqDecision T}
    (d : DynamicArray.t T) (m : MerabsDinamicArr.t T) (x : obj T) :
  DynamicArray.Inv d → MerabsDinamicArr.Inv m → 1 ≤ MerabsDinamicArr.capacity m →
  (∃ d', DynamicArray.add_then_remove_last x d = Return x d'
     ∧ DynamicArray.size d' = Return (DynamicArray._len d) d'
     ∧ DynamicArray.live d' = DynamicArray.live d)
  ∧ (∃ m', MerabsDinamicArr.add_then_remove_last x m = Return None m'
     ∧ MerabsDinamicArr.size m' = Return (MerabsDinamicArr.len m) m'
     ∧ MerabsDinamicArr.live m' = MerabsDinamicArr.live m).
Proof.
  intros Hd Hm Hc1. split.
  - pose proof (DynamicArrayFacts.Inv_after_add d x Hd) as Hd1.
    pose proof (DynamicArrayFacts.live_after_add d x Hd) as Hlive.
    pose proof (DynamicArrayFacts.length_live d Hd) as Hll.
    set (d1 := DynamicArray.after_add x d) in *.
    assert (DynamicArray._len d1 = DynamicArray._len d + 1) as Hlen.
    { unfold d1, DynamicArray.after_add. by case_decide. }
    destruct Hd as [Hc Hn].
    destruct (DynamicArrayFacts.remove_at_spec d1 (DynamicArray._len d1 - 1) Hd1)
      as (y & Hy & Hrm); [lia|].
    assert (Z.to_nat (DynamicArray._len d1 - 1) = length (DynamicArray.live d)) as Hidx by lia.
    rewrite Hidx, Hlive, list_lookup_middle in Hy by done. injection Hy as <-.
    exists (DynamicArray.after_remove_at (DynamicArray._len d1 - 1) d1). split_and!.
    + unfold DynamicArray.add_then_remove_last.
      mreturn (DynamicArrayFacts.add_spec d x (conj Hc Hn)). fold d1.
      unfold DynamicArray.size. mstep. done.
    + unfold DynamicArray.size, gets. f_equal. cbn. lia.
    + rewrite DynamicArrayFacts.live_after_remove_at by (done || lia).
      rewrite Hidx, Hlive. rewrite delete_middle. by rewrite app_nil_r.
  - pose proof (MerabsFacts.Inv_m_after_add m x Hm Hc1) as Hm1.
    pose proof (MerabsFacts.m_live_after_add m x Hm Hc1) as Hlive.
    pose proof (MerabsFacts.m_length_live m (MerabsFacts.Inv_Live m Hm)) as Hll.
    set (m1 := MerabsDinamicArr.after_add x m) in *.
    assert (MerabsDinamicArr.len m1 = MerabsDinamicArr.len m + 1) as Hlen by done.
    pose proof Hm as [Hc [Hn0 Hn]]. pose proof Hm1 as [Hc1' [Hn0' Hn']].
    pose proof (MerabsFacts.Inv_Live m1 Hm1) as Hl1.
    assert (Z.to_nat (MerabsDinamicArr.len m1 - 1) = length (MerabsDinamicArr.live m))
      as Hidx by lia.
    exists (MerabsDinamicArr.after_remove_at (MerabsDinamicArr.len m1 - 1) m1). split_and!.
    + unfold MerabsDinamicArr.add_then_remove_last.
      mreturn (MerabsFacts.m_add_spec m x Hm Hc1). fold m1.
      unfold MerabsDinamicArr.size. mstep.
      apply MerabsFacts.m_remove_at_spec; [done|lia].
    + unfold MerabsDinamicArr.size, gets. f_equal. cbn. lia.
    + rewrite MerabsFacts.m_live_after_remove_at by (done || lia).
      rewrite Hidx, Hlive. rewrite delete_middle. by rewrite app_nil_r.
Qed.

Lemma add_then_remove_last_restores_witness :
  (∃ d', DynamicArray.add_then_remove_last (Some 7) (DynamicArray.mk (T:=Z) 1 0 [None])
         = Return (Some 7) d')
  ∧ (∃ m', MerabsDinamicArr.add_then_remove_last (Some 7)
             (MerabsDinamicArr.mk (T:=Z) 1 0 [None]) = Return None m').
Proof.
  assert (DynamicArray.Inv (DynamicArray.mk (T:=Z) 1 0 [None])) as Hd
    by (repeat split; cbn; lia).
  assert (MerabsDinamicArr.Inv (MerabsDinamicArr.mk (T:=Z) 1 0 [None])) as Hm
    by (repeat split; cbn; lia).
  destruct (add_then_remove_last_restores (DynamicArray.mk 1 0 [None])
              (MerabsDinamicArr.mk 1 0 [None]) (Some 7) Hd Hm)
    as [(d' & Hrun & _) (m' & Hrun' & _)]; [cbn; lia|].
  split; [by exists d'|by exists m'].
Defined.

(** C4: on both classes, [remove_at] with an index that is negative or not
    below the length raises [IndexError] and leaves every field as it was. *)
Theorem remove_at_rejects_out_of_range {T} `{EqDecision T}
    (d : DynamicArray.t T) (i : Z) (m : MerabsDinamicArr.t T) (j : Z) :
  (i < 0 ∨ i >= DynamicArray._len d) →
  (j < 0 ∨ j >= MerabsDinamicArr.len m) →
  DynamicArray.remove_at i d = Raise IndexError d
  ∧ MerabsDinamicArr.remove_at j m = Raise IndexError m.
Proof.
  intros Hi Hj. split.
  - by apply DynamicArrayFacts.remove_at_out_of_range.
  - by apply MerabsFacts.m_remove_at_out_of_range.
Qed.

Lemma remove_at_rejects_out_of_range_witness :
  DynamicArray.remove_at 2 (DynamicArray.mk (T:=Z) 2 2 [Some 1; Some 2])
  = Raise IndexError (DynamicArray.mk 2 2 [Some 1; Some 2])
  ∧ MerabsDinamicArr.remove_at (-1) (MerabsDinamicArr.mk (T:=Z) 2 1 [Some 1; None])
    = Raise IndexError (MerabsDinamicArr.mk 2 1 [Some 1; None]).
Proof.
  apply (remove_at_rejects_out_of_range
           (DynamicArray.mk 2 2 [Some 1; Some 2]) 2
           (MerabsDinamicArr.mk 2 1 [Some 1; None]) (-1)); cbn; lia.
Defined.

(** C5, the part that holds: the constructor of [DynamicArray] raises
    [ValueError] on a negative capacity; on a capacity [c >= 0] both
    constructors build an object of length 0 with exactly [c] empty slots. *)
Lemma init_spec_both {T} (c : Z) :
  (c < 0 → DynamicArray.__init__ (T:=T) c = inl ValueError)
  ∧ (0 ≤ c →
     DynamicArray.__init__ (T:=T) c
     = inr (DynamicArray.mk c 0 (replicate (Z.to_nat c) None))
     ∧ MerabsDinamicArr.__init__ (T:=T) c
       = inr (MerabsDinamicArr.mk c 0 (replicate (Z.to_nat c) None))).
Proof.
  split.
  - apply DynamicArrayFacts.init_negative.
  - intros Hc. split; [by apply DynamicArrayFacts.init_spec|done].
Qed.

(** C5, at the failing input: the constructor of [MerabsDinamicArr] accepts
    the capacity -1 and builds an object with no slot, where the constructor of
    [DynamicArray] raises [ValueError]. *)
Theorem merabs_init_accepts_negative :
  MerabsDinamicArr.__init__ (T:=Z) (-1) = inr (MerabsDinamicArr.mk (-1) 0 [])
  ∧ DynamicArray.__init__ (T:=Z) (-1) = inl ValueError.
Proof. split; reflexivity. Qed.

(** C6, counterexample: after [add(None)] a fresh [MerabsDinamicArr] of
    capacity 1 has length 1, and its iteration yields nothing. *)
Lemma merabs_iter_skips_None :
  let s := MerabsDinamicArr.mk (T:=Z) 1 1 [None] in
  MerabsDinamicArr.add None (MerabsDinamicArr.mk 1 0 [None]) = Return tt s
  ∧ MerabsDinamicArr.len s = 1
  ∧ MerabsDinamicArr.__iter__ s = ([], None).
Proof. cbn zeta. split_and!; by vm_compute. Qed.

(** C6, amended: a fresh iteration over a [DynamicArray] yields exactly
    [length] values, the elements at indices 0 to [length - 1] in index
    order; over a [MerabsDinamicArr] it yields, in index order, those of the
    elements at indices 0 to [length - 1] that are not [None], hence all
    [length] of them when none is [None]. *)
Theorem iter_yields_live {T} `{EqDecision T}
    (d : DynamicArray.t T) (m : MerabsDinamicArr.t T) :
  DynamicArray.Inv d → MerabsDinamicArr.Live m →
  (DynamicArray.__iter__ d = (DynamicArray.live d, None)
   ∧ length (DynamicArray.live d) = Z.to_nat (DynamicArray._len d)
   ∧ ∀ k : nat, (k < Z.to_nat (DynamicArray._len d))%nat →
       DynamicArray.live d !! k = DynamicArray._arr d !! k)
  ∧ (MerabsDinamicArr.__iter__ m
     = (filter (λ x, x ≠ None) (MerabsDinamicArr.live m), None)
     ∧ length (MerabsDinamicArr.live m) = Z.to_nat (MerabsDinamicArr.len m)
     ∧ (∀ k : nat, (k < Z.to_nat (MerabsDinamicArr.len m))%nat →
          MerabsDinamicArr.live m !! k = MerabsDinamicArr.arr m !! k)
     ∧ (None ∉ MerabsDinamicArr.live m →
        MerabsDinamicArr.__iter__ m = (MerabsDinamicArr.live m, None))).
Proof.
  intros Hd Hm. split; split_and!.
  - by apply DynamicArrayFacts.iter_spec.
  - by apply DynamicArrayFacts.length_live.
  - apply DynamicArrayFacts.lookup_live.
  - by apply MerabsFacts.m_iter_spec.
  - by apply MerabsFacts.m_length_live.
  - apply MerabsFacts.m_lookup_live.
  - intros Hnone. rewrite MerabsFacts.m_iter_spec by done. f_equal.
    induction (MerabsDinamicArr.live m) as [|x l IH]; [done|].
    rewrite not_elem_of_cons in Hnone. destruct Hnone as [Hx Hl].
    rewrite filter_cons_True by done. f_equal. by apply IH.
Qed.

Lemma iter_yields_live_witness :
  DynamicArray.__iter__ (DynamicArray.mk (T:=Z) 2 2 [Some 1; None])
  = ([Some 1; None], None)
  ∧ MerabsDinamicArr.__iter__ (MerabsDinamicArr.mk (T:=Z) 2 2 [Some 1; None])
    = ([Some 1], None).
Proof.
  assert (DynamicArray.Inv (DynamicArray.mk (T:=Z) 2 2 [Some 1; None])) as Hd
    by (repeat split; cbn; lia).
  assert (MerabsDinamicArr.Live (MerabsDinamicArr.mk (T:=Z) 2 2 [Some 1; None])) as Hm
    by (repeat split; cbn; lia).
  destruct (iter_yields_live _ _ Hd Hm) as [(Hi & _) (Hi' & _)].
  split; [exact Hi|exact Hi'].
Defined.

(** C7: on both classes, for a value that is not among the live elements
    [index_of] returns -1, [contains] returns false and [remove] returns false
    with every field as it was; for a value that is among them [index_of]
    returns the first index holding it, [contains] returns true, and [remove]
    returns true with the fields that [remove_at] on that index leaves.  None
    of the calls raises. *)
Theorem absent_and_present_values {T} `{EqDecision T}
    (d : DynamicArray.t T) (m : MerabsDinamicArr.t T) (o : obj T) :
  DynamicArray.Inv d → MerabsDinamicArr.Live m →
  ((o ∉ DynamicArray.live d →
      DynamicArray.index_of o d = Return (-1) d
      ∧ DynamicArray.contains o d = Return false d
      ∧ DynamicArray.remove o d = Return false d)
   ∧ (o ∈ DynamicArray.live d →
      ∃ (k : nat) r d',
        DynamicArray.live d !! k = Some o
        ∧ (∀ j : nat, (j < k)%nat → DynamicArray.live d !! j ≠ Some o)
        ∧ DynamicArray.index_of o d = Return (Z.of_nat k) d
        ∧ DynamicArray.contains o d = Return true d
        ∧ DynamicArray.remove_at (Z.of_nat k) d = Return r d'
        ∧ DynamicArray.remove o d = Return true d'))
  ∧ ((o ∉ MerabsDinamicArr.live m →
      MerabsDinamicArr.index_of o m = Return (-1) m
      ∧ MerabsDinamicArr.contains o m = Return false m
      ∧ MerabsDinamicArr.remove o m = Return false m)
   ∧ (o ∈ MerabsDinamicArr.live m →
      ∃ (k : nat) r m',
        MerabsDinamicArr.live m !! k = Some o
        ∧ (∀ j : nat, (j < k)%nat → MerabsDinamicArr.live m !! j ≠ Some o)
        ∧ MerabsDinamicArr.index_of o m = Return (Z.of_nat k) m
        ∧ MerabsDinamicArr.contains o m = Return true m
        ∧ MerabsDinamicArr.remove_at (Z.of_nat k) m = Return r m'
        ∧ MerabsDinamicArr.remove o m = Return true m')).
Proof.
  intros Hd Hm. split; split.
  - intros Habs%first_index_absent.
    rewrite DynamicArrayFacts.index_of_spec, DynamicArrayFacts.contains_spec,
      DynamicArrayFacts.remove_spec, Habs by done. done.
  - intros (k & Hk & Hlook & Hleast)%first_index_present.
    pose proof (lookup_lt_Some _ _ _ Hlook) as Hlt.
    rewrite DynamicArrayFacts.length_live in Hlt by done.
    destruct (DynamicArrayFacts.remove_at_spec d (Z.of_nat k) Hd) as (r & _ & Hrm); [lia|].
    eexists k, r, _. split_and!; [done|done| | |exact Hrm|].
    + by rewrite DynamicArrayFacts.index_of_spec, Hk.
    + rewrite DynamicArrayFacts.contains_spec, Hk by done.
      by rewrite bool_decide_eq_true_2 by lia.
    + rewrite DynamicArrayFacts.remove_spec, Hk by done.
      by rewrite decide_False by lia.
  - intros Habs%first_index_absent.
    rewrite MerabsFacts.m_index_of_spec, MerabsFacts.m_contains_spec,
      MerabsFacts.m_remove_spec, Habs by done. done.
  - intros (k & Hk & Hlook & Hleast)%first_index_present.
    pose proof (lookup_lt_Some _ _ _ Hlook) as Hlt.
    rewrite MerabsFacts.m_length_live in Hlt by done.
    eexists k, None, _. split_and!; [done|done| | | |].
    + by rewrite MerabsFacts.m_index_of_spec, Hk.
    + rewrite MerabsFacts.m_contains_spec, Hk by done.
      by rewrite bool_decide_eq_true_2 by lia.
    + apply MerabsFacts.m_remove_at_spec; [done|lia].
    + rewrite MerabsFacts.m_remove_spec, Hk by done.
      by rewrite decide_False by lia.
Qed.

Lemma absent_and_present_values_witness :
  DynamicArray.remove (Some 9) (DynamicArray.mk (T:=Z) 2 2 [Some 1; Some 2])
  = Return false (DynamicArray.mk 2 2 [Some 1; Some 2])
  ∧ MerabsDinamicArr.remove (Some 9) (MerabsDinamicArr.mk (T:=Z) 2 2 [Some 1; Some 2])
    = Return false (MerabsDinamicArr.mk 2 2 [Some 1; Some 2]).
Proof.
  assert (DynamicArray.Inv (DynamicArray.mk (T:=Z) 2 2 [Some 1; Some 2])) as Hd
    by (repeat split; cbn; lia).
  assert (MerabsDinamicArr.Live (MerabsDinamicArr.mk (T:=Z) 2 2 [Some 1; Some 2])) as Hm
    by (repeat split; cbn; lia).
  destruct (absent_and_present_values _ _ (Some 9) Hd Hm) as [[Habs _] [Habs' _]].
  split.
  - apply Habs. compute_done.
  - apply Habs'. compute_done.
Defined.

(** C8, the part that holds: [0 <= length <= capacity] holds in every state
    of a [DynamicArray] and after every call on it, and in every state of a
    [MerabsDinamicArr] built with a capacity that is not negative. *)
Lemma length_within_capacity_both {T} `{EqDecision T} :
  (∀ d : DynamicArray.t T, DynamicArray.reachable d →
     0 ≤ DynamicArray._len d ≤ DynamicArray._capacity d
     ∧ ∀ c, 0 ≤ DynamicArray._len (DynamicArray.exec c d)
              ≤ DynamicArray._capacity (DynamicArray.exec c d))
  ∧ (∀ (c : Z) (m0 m : MerabsDinamicArr.t T),
       0 ≤ c → MerabsDinamicArr.__init__ c = inr m0 →
       MerabsDinamicArr.reachable_from m0 m →
       0 ≤ MerabsDinamicArr.len m ≤ MerabsDinamicArr.capacity m).
Proof.
  split.
  - intros d Hd%DynamicArrayFacts.reachable_Inv. split; [apply Hd|].
    intros c. by apply DynamicArrayFacts.Inv_exec.
  - intros c m0 m Hc Hinit Hreach.
    destruct (MerabsFacts.m_reachable_from_Inv m0 m) as [[Hcap [Hn0 Hn]] _];
      [by apply (MerabsFacts.Inv_m_init c)|done|lia].
Qed.

(** C8, at the failing input: the constructor of [MerabsDinamicArr] returns
    normally on the capacity -1, with a length above the capacity. *)
Theorem merabs_init_negative_breaks_bounds :
  ∃ s : MerabsDinamicArr.t Z,
    MerabsDinamicArr.__init__ (-1) = inr s
    ∧ MerabsDinamicArr.reachable s
    ∧ MerabsDinamicArr.len s = 0
    ∧ MerabsDinamicArr.capacity s = -1
    ∧ MerabsDinamicArr.len s > MerabsDinamicArr.capacity s.
Proof.
  exists (MerabsDinamicArr.mk (-1) 0 []). split_and!; [done| |done|done|cbn; lia].
  exists (-1), (MerabsDinamicArr.mk (-1) 0 []). split; [done|].
  apply MerabsDinamicArr.reach_refl.
Qed.

(** C9: a [MerabsDinamicArr] built with capacity 0 has no slot, and in
    every state it can reach [_resize] leaves the capacity 0 and the store
    empty, every call of [add] raises [IndexError] with the fields unchanged,
    and the size is 0. *)
Theorem merabs_capacity_0_never_appends {T} `{EqDecision T}
    (s : MerabsDinamicArr.t T) (x : obj T) :
  MerabsDinamicArr.reachable_from (MerabsDinamicArr.mk 0 0 []) s →
  MerabsDinamicArr.__init__ (T:=T) 0 = inr (MerabsDinamicArr.mk 0 0 [])
  ∧ MerabsDinamicArr._resize s = Return tt s
  ∧ MerabsDinamicArr.capacity s = 0
  ∧ MerabsDinamicArr.arr s = []
  ∧ MerabsDinamicArr.add x s = Raise IndexError s
  ∧ MerabsDinamicArr.size s = Return 0 s.
Proof. intros ->%MerabsFacts.m_reachable_capacity_0. done. Qed.

Lemma merabs_capacity_0_never_appends_witness :
  let s := MerabsDinamicArr.exec (MerabsDinamicArr.CRemove (Some 1))
             (MerabsDinamicArr.exec (MerabsDinamicArr.CAdd (Some 1))
                (MerabsDinamicArr.mk (T:=Z) 0 0 [])) in
  MerabsDinamicArr.add (Some 2) s = Raise IndexError s.
Proof.
  cbn zeta.
  apply (merabs_capacity_0_never_appends _ (Some 2)).
  apply MerabsDinamicArr.reach_call, MerabsDinamicArr.reach_call,
    MerabsDinamicArr.reach_refl.
Defined.

(** C10, counterexample: after [set(1, 5)] on a fresh [DynamicArray] of
    capacity 2 the length is 0, and [get(1)] returns 5, not [None]. *)
Lemma raw_get_returns_written_slot :
  let s := DynamicArray.mk (T:=Z) 2 0 [None; Some 5] in
  DynamicArray.set 1 (Some 5) (DynamicArray.mk 2 0 [None; None]) = Return tt s
  ∧ DynamicArray._len s ≤ 1 < DynamicArray._capacity s
  ∧ DynamicArray.get 1 s = Return (Some 5) s
  ∧ (Some 5 : obj Z) ≠ None.
Proof.
  cbn zeta. split; [by vm_compute|].
  split; [cbn; lia|]. split; [by vm_compute|done].
Qed.

(** C10, amended: on a [DynamicArray], for every index with
    [length <= index < capacity], [get(index)] returns the content of the slot
    without raising, which is [None] when the slots past the length are empty,
    as they are in every state reached without a plain [set] outside
    [0, length) ([DynamicArrayFacts.reachable_checked_slack_empty]); and
    [set(index, value)] writes the slot and leaves the length and the
    capacity as they were, so that [get(index)] then returns the value while
    [size()], the iteration and [index_of] give what they gave before. *)
Theorem raw_accessors_past_length {T} `{EqDecision T}
    (d : DynamicArray.t T) (index : Z) (v : obj T) :
  DynamicArray.Inv d →
  DynamicArray._len d ≤ index < DynamicArray._capacity d →
  let d' := DynamicArray.set_arr (<[Z.to_nat index := v]> (DynamicArray._arr d)) d in
  (∃ x, DynamicArray._arr d !! Z.to_nat index = Some x
        ∧ DynamicArray.get index d = Return x d
        ∧ (DynamicArray.slack_empty d → x = None))
  ∧ DynamicArray.set index v d = Return tt d'
  ∧ DynamicArray._len d' = DynamicArray._len d
  ∧ DynamicArray._capacity d' = DynamicArray._capacity d
  ∧ DynamicArray.get index d' = Return v d'
  ∧ DynamicArray.size d' = Return (DynamicArray._len d) d'
  ∧ DynamicArray.size d = Return (DynamicArray._len d) d
  ∧ DynamicArray.__iter__ d' = DynamicArray.__iter__ d
  ∧ (∀ o, ∃ r, DynamicArray.index_of o d' = Return r d'
               ∧ DynamicArray.index_of o d = Return r d).
Proof.
  intros Hd Hi d'. pose proof Hd as [Hc Hn].
  assert (DynamicArray.Inv d') as Hd'.
  { split; cbn; [by rewrite length_insert|lia]. }
  assert (DynamicArray.live d' = DynamicArray.live d) as Hlive.
  { unfold DynamicArray.live. cbn. apply take_insert_ge. lia. }
  split_and!.
  - destruct (DynamicArrayFacts.get_in d index) as (x & Hx & Hget); [lia|done|].
    exists x. split_and!; [done|done|].
    intros Hs. specialize (Hs (Z.to_nat index) ltac:(lia)). congruence.
  - apply DynamicArrayFacts.set_in; [lia|done].
  - done.
  - done.
  - rewrite <- (Z2Nat.id index) at 1 by lia.
    apply DynamicArrayFacts.arr_get_nat. cbn.
    apply list_lookup_insert_eq. lia.
  - done.
  - done.
  - by rewrite !DynamicArrayFacts.iter_spec, Hlive.
  - intros o. eexists.
    rewrite !DynamicArrayFacts.index_of_spec, Hlive by done. done.
Qed.

Lemma raw_accessors_past_length_witness :
  DynamicArray.get 1 (DynamicArray.mk (T:=Z) 2 1 [Some 3; None])
  = Return None (DynamicArray.mk 2 1 [Some 3; None])
  ∧ DynamicArray.set 1 (Some 5) (DynamicArray.mk (T:=Z) 2 1 [Some 3; None])
    = Return tt (DynamicArray.mk 2 1 [Some 3; Some 5]).
Proof.
  assert (DynamicArray.Inv (DynamicArray.mk (T:=Z) 2 1 [Some 3; None])) as Hd
    by (repeat split; cbn; lia).
  destruct (raw_accessors_past_length (DynamicArray.mk 2 1 [Some 3; None]) 1 (Some 5) Hd)
    as ((x & Hx & Hget & _) & Hset & _); [cbn; lia|].
  split; [|exact Hset].
  cbn in Hx. injection Hx as <-. exact Hget.
Defined.

(** * Further properties of the two classes *)

(** ** Python lists and strings *)

Section PyListMore.
Context {T : Type}.
Implicit Types (l : list (obj T)) (i : Z) (v x : obj T).

Lemma norm_index_negative l i :
  - Z.of_nat (length l) ≤ i < 0 →
  norm_index l i = Some (Z.to_nat (Z.of_nat (length l) + i)).
Proof.
  intros. unfold norm_index. by rewrite decide_False, decide_True by lia.
Qed.

Lemma norm_index_below l i : i < - Z.of_nat (length l) → norm_index l i = None.
Proof. intros. unfold norm_index. by rewrite !decide_False by lia. Qed.

Lemma getitem_outside l i :
  i < - Z.of_nat (length l) ∨ Z.of_nat (length l) ≤ i → getitem l i = None.
Proof.
  intros [?|?]; unfold getitem.
  - by rewrite norm_index_below.
  - by rewrite norm_index_above.
Qed.

Lemma setitem_outside l i v :
  i < - Z.of_nat (length l) ∨ Z.of_nat (length l) ≤ i → setitem l i v = None.
Proof.
  intros [?|?]; unfold setitem.
  - by rewrite norm_index_below.
  - by rewrite norm_index_above.
Qed.
End PyListMore.

Lemma string_app_assoc (a b c : string) : (a +:+ b) +:+ c = a +:+ (b +:+ c).
Proof.
  induction a as [|ch a IH]; [done|].
  change (String ch ((a +:+ b) +:+ c) = String ch (a +:+ (b +:+ c))).
  by rewrite IH.
Qed.

Lemma string_app_empty_r (a : string) : a +:+ "" = a.
Proof.
  induction a as [|ch a IH]; [done|].
  change (String ch (a +:+ "") = String ch a). by rewrite IH.
Qed.

Section Rendering.
Context {T : Type} (str_T : T → string).

(** The elements of [l], each followed by a comma and a space. *)
Definition comma_after (l : list (obj T)) : string :=
  foldr (λ x r, py_str str_T x +:+ ", " +:+ r) "" l.

Lemma comma_after_snoc (l : list (obj T)) (x : obj T) :
  comma_after (l ++ [x]) = comma_after l +:+ (py_str str_T x +:+ ", ").
Proof.
  unfold comma_after. induction l as [|y l IH]; cbn.
  - by rewrite string_app_empty_r.
  - by rewrite IH, !string_app_assoc.
Qed.

Lemma concat_snoc (l : list (obj T)) (x : obj T) :
  String.concat ", " (py_str str_T <$> (l ++ [x]))
  = comma_after l +:+ py_str str_T x.
Proof.
  induction l as [|y l IH]; [done|].
  change (String.concat ", " (py_str str_T <$> ((y :: l) ++ [x])))
    with (String.concat ", " (py_str str_T y :: (py_str str_T <$> (l ++ [x])))).
  destruct (py_str str_T <$> (l ++ [x])) as [|z zs] eqn:Hl.
  - destruct l; discriminate.
  - cbn [String.concat]. cbn [String.concat] in IH. rewrite IH.
    unfold comma_after. cbn. by rewrite !string_app_assoc.
Qed.
End Rendering.

Section RenderLoop.
Context {T : Type} {S : Type} (proj : S → list (obj T)) (str_T : T → string).

(** The loop of [__str__]:
    [for i in range(m): result += str(self.arr[i]) + ", "]. *)
Lemma render_loop (s : S) (m : Z) :
  0 ≤ m ≤ Z.of_nat (length (proj s)) →
  for_ (range m)
    (λ i result, x ← (a ← gets proj; index_or_raise (getitem a i));
                 mret (result +:+ (py_str str_T x +:+ ", ")))
    "[" s
  = Return ("[" +:+ comma_after str_T (take (Z.to_nat m) (proj s))) s.
Proof.
  intros Hm.
  loop_with (λ (k : nat) (r : string) (s0 : S),
    s0 = s ∧ r = "[" +:+ comma_after str_T (take k (proj s)))
    as (r & s' & Hrun & -> & ->).
  - done.
  - intros k i r s0 [-> Hi]%lookup_range [-> ->].
    destruct (lookup_lt_is_Some_2 (proj s) k) as [x Hx]; [lia|].
    eexists _, s. split; [|done]. run.
    rewrite (getitem_nat _ _ _ Hx). cbn.
    by rewrite (take_S_r _ _ _ Hx), comma_after_snoc, string_app_assoc.
  - rewrite Hrun, length_range. done.
Qed.

Lemma render_live (l : list (obj T)) (n : nat) x :
  l !! n = Some x →
  ("[" +:+ comma_after str_T (take n l)) +:+ (py_str str_T x +:+ "]")
  = "[" +:+ String.concat ", " (py_str str_T <$> take (Datatypes.S n) l) +:+ "]".
Proof.
  intros Hx. by rewrite (take_S_r _ _ _ Hx), concat_snoc, !string_app_assoc.
Qed.
End RenderLoop.

Module DynamicArrayMore.
Import DynamicArray DynamicArrayFacts.
Section Facts.
Context {T : Type} `{EqDecision T}.
Implicit Types (s : t T) (x v o : obj T) (i index : Z).

Lemma str_spec (str_T : T → string) s :
  Inv s →
  __str__ str_T s
  = Return ("[" +:+ String.concat ", " (py_str str_T <$> live s) +:+ "]") s.
Proof.
  intros [Hc Hn]. unfold __str__, live. mstep.
  destruct (decide (_len s = 0)) as [->|Hn0]; [done|].
  unfold arr_get at 1.
  mcall (render_loop _arr) by lia.
  destruct (arr_get_in s (_len s - 1)) as (x & Hx & Hget); [lia|].
  mreturn Hget. unfold mret, M_ret. f_equal.
  rewrite (render_live _ _ _ _ Hx).
  by replace (Datatypes.S (Z.to_nat (_len s - 1))) with (Z.to_nat (_len s)) by lia.
Qed.

Lemma getitem_spec s index :
  Inv s → 0 ≤ index < _len s →
  ∃ x, live s !! Z.to_nat index = Some x ∧ __getitem__ index s = Return x s.
Proof.
  intros [Hc Hn] Hi. destruct (arr_get_in s index) as (x & Hx & Hget); [lia|].
  exists x. split; [by rewrite lookup_live by lia|].
  unfold __getitem__. mstep. by rewrite decide_False by lia.
Qed.

Lemma getitem_out_of_range s index :
  index < 0 ∨ index >= _len s → __getitem__ index s = Raise IndexError s.
Proof. intros. unfold __getitem__. mstep. by rewrite decide_True. Qed.

Lemma setitem_spec s index v :
  Inv s → 0 ≤ index < _len s →
  __setitem__ index v s = Return tt (set_arr (<[Z.to_nat index := v]> (_arr s)) s).
Proof.
  intros [Hc Hn] Hi. unfold __setitem__. mstep. rewrite decide_False by lia.
  apply arr_set_in. lia.
Qed.

Lemma setitem_out_of_range s index v :
  index < 0 ∨ index >= _len s → __setitem__ index v s = Raise IndexError s.
Proof. intros. unfold __setitem__. mstep. by rewrite decide_True. Qed.

Lemma live_set_arr_insert s (k : nat) v :
  (k < Z.to_nat (_len s))%nat →
  live (set_arr (<[k := v]> (_arr s)) s) = <[k := v]> (live s).
Proof. intros. unfold live. cbn. by rewrite take_insert_lt. Qed.

Lemma Inv_set_arr_insert s (k : nat) v :
  Inv s → Inv (set_arr (<[k := v]> (_arr s)) s).
Proof. intros [Hc Hn]. split; cbn; [by rewrite length_insert|done]. Qed.
End Facts.
End DynamicArrayMore.

Module MerabsMore.
Import MerabsDinamicArr MerabsFacts.
Section Facts.
Context {T : Type} `{EqDecision T}.
Implicit Types (s : t T) (x v o value : obj T) (i index : Z).

Lemma m_str_spec (str_T : T → string) s :
  Live s →
  __str__ str_T s
  = Return ("[" +:+ String.concat ", " (py_str str_T <$> live s) +:+ "]") s.
Proof.
  intros [Hn0 Hn]. unfold __str__, live. mstep.
  destruct (decide (len s = 0)) as [->|Hne]; [done|].
  unfold arr_get at 1.
  mcall (render_loop arr) by lia.
  destruct (m_arr_get_in s (len s - 1)) as (x & Hx & Hget); [lia|].
  mreturn Hget. unfold mret, M_ret. f_equal.
  rewrite (render_live _ _ _ _ Hx).
  by replace (Datatypes.S (Z.to_nat (len s - 1))) with (Z.to_nat (len s)) by lia.
Qed.

Lemma m_set_at_spec s index v :
  Live s → 0 ≤ index < len s →
  set_at index v s = Return tt (set_arr (<[Z.to_nat index := v]> (arr s)) s).
Proof.
  intros [Hn0 Hn] Hi. unfold set_at. mstep. rewrite decide_False by lia.
  apply m_arr_set_in. lia.
Qed.

Lemma m_live_set_arr_insert s (k : nat) v :
  (k < Z.to_nat (len s))%nat →
  live (set_arr (<[k := v]> (arr s)) s) = <[k := v]> (live s).
Proof. intros. unfold live. cbn. by rewrite take_insert_lt. Qed.

Lemma Live_set_arr_insert s (k : nat) v :
  Live s → Live (set_arr (<[k := v]> (arr s)) s).
Proof. intros [Hn0 Hn]. unfold Live. cbn. by rewrite length_insert. Qed.

(** *** Slots past the length *)

Lemma m_slack_empty_init (c : Z) s : __init__ c = inr s → slack_empty s.
Proof.
  intros [= <-] k. cbn. rewrite length_none_list. intros Hk.
  apply lookup_replicate_2. lia.
Qed.

Lemma m_slack_empty_after_add s x :
  Inv s → 1 ≤ capacity s → slack_empty s → slack_empty (after_add x s).
Proof.
  intros [Hc [Hn0 Hn]] Hc1 Hs k. unfold after_add, after_resize.
  destruct (decide (len s >= capacity s)); cbn.
  - rewrite length_insert, length_app, length_take, length_replicate. intros Hk.
    rewrite list_lookup_insert_ne by lia.
    rewrite lookup_app_r by (rewrite length_take; lia).
    apply lookup_replicate_2. rewrite length_take. lia.
  - rewrite length_insert. intros Hk.
    rewrite list_lookup_insert_ne by lia. apply Hs. lia.
Qed.

Lemma m_slack_empty_after_remove_at s index :
  Live s → 0 ≤ index < len s → slack_empty s → slack_empty (after_remove_at index s).
Proof.
  intros HL Hi Hs k. pose proof (m_length_live s HL) as Hl.
  rewrite m_length_after_remove_at by done. destruct HL as [Hn0 Hn]. cbn.
  assert (length (delete (Z.to_nat index) (live s)) = Z.to_nat (len s - 1)) as Hd
    by (rewrite length_delete by (apply lookup_lt_is_Some_2; lia); lia).
  intros Hk. rewrite lookup_app_r by lia. rewrite Hd.
  destruct (k - Z.to_nat (len s - 1))%nat as [|j] eqn:Hj; [done|].
  change ((None :: drop (Z.to_nat (len s)) (arr s)) !! Datatypes.S j)
    with (drop (Z.to_nat (len s)) (arr s) !! j).
  rewrite lookup_drop. apply Hs. lia.
Qed.

Lemma m_slack_empty_arr_set_live s i v :
  Live s → 0 ≤ i < len s → slack_empty s → slack_empty (fields (arr_set i v s)).
Proof.
  intros [Hn0 Hn] Hi Hs k. rewrite m_arr_set_in by lia. cbn.
  rewrite length_insert. intros Hk.
  rewrite list_lookup_insert_ne by lia. by apply Hs.
Qed.

Lemma m_slack_empty_exec (c : call T) s :
  Inv s → slack_empty s → slack_empty (exec c s).
Proof.
  intros HInv Hs. pose proof HInv as [Hc HL]. pose proof HL as [Hn0 Hn].
  destruct c as [x|i x|i|o]; cbn [exec].
  - destruct (decide (capacity s = 0)) as [Hc0|Hc0].
    + by rewrite m_add_capacity_0.
    + rewrite m_add_spec by (done || lia). apply m_slack_empty_after_add; [done|lia|done].
  - unfold set_at. mstep. case_decide; [done|].
    apply m_slack_empty_arr_set_live; [done|lia|done].
  - destruct (decide (0 ≤ i < len s)) as [Hi|Hi].
    + rewrite m_remove_at_spec by done. by apply m_slack_empty_after_remove_at.
    + by rewrite m_remove_at_out_of_range by lia.
  - rewrite m_remove_spec by done. case_decide; [done|].
    destruct (first_index_range o (live s)) as [|Hr]; [done|].
    rewrite m_length_live in Hr by done.
    apply m_slack_empty_after_remove_at; [done|lia|done].
Qed.

Lemma m_reachable_slack_empty s : reachable s → slack_empty s.
Proof.
  intros (c & s0 & Hinit & Hreach).
  assert ((Inv s ∧ slack_empty s) ∨ (capacity s < 0 ∧ len s = 0 ∧ arr s = []))
    as [[_ Hs]|(_ & _ & Ha)].
  { induction Hreach as [|call s _ [[IH1 IH2]|(Hc & Hl & Ha)]].
    - destruct (decide (0 ≤ c)).
      + left. split; [by apply (Inv_m_init c)|by apply (m_slack_empty_init c)].
      + right. injection Hinit as <-. cbn. split_and!; [lia|done|].
        unfold none_list. by replace (Z.to_nat c) with 0%nat by lia.
    - left. split; [by apply Inv_m_exec|by apply m_slack_empty_exec].
    - right. by apply m_exec_negative. }
  - done.
  - intros k. rewrite Ha. cbn. lia.
Qed.

(** On an object without slot and with a negative capacity, [add] doubles
    the capacity and then fails to write. *)
Lemma m_add_negative (cap : Z) x :
  cap < 0 →
  add x (mk cap 0 []) = Raise IndexError (mk (T:=T) (cap * 2) 0 []).
Proof.
  intros Hcap. unfold add, _resize. repeat mstep. cbn.
  rewrite decide_True by lia. repeat mstep. cbn.
  replace (none_list (T:=T) (cap * 2)) with (@nil (obj T))
    by (unfold none_list; by replace (Z.to_nat (cap * 2)) with 0%nat by lia).
  change (range 0) with (@nil Z). run.
  by rewrite m_arr_set_above by (cbn; lia).
Qed.
End Facts.
End MerabsMore.

Section FirstIndexMore.
Context {T : Type} `{EqDecision T}.
Implicit Types (l : list (obj T)) (o : obj T).

Lemma first_index_found_iff o l : first_index o l ≠ -1 ↔ o ∈ l.
Proof.
  split.
  - intros Hne. destruct (decide (o ∈ l)) as [|Hnot]; [done|].
    by rewrite first_index_absent in Hne.
  - intros (k & Hk & _)%first_index_present. lia.
Qed.

Lemma first_index_app_l o l l' :
  o ∈ l → first_index o (l ++ l') = first_index o l.
Proof.
  induction l as [|x l IH]; [by intros ?%elem_of_nil|].
  intros Hin. cbn [app]. rewrite !first_index_cons.
  destruct (decide (x = o)) as [|Hne]; [done|].
  apply elem_of_cons in Hin as [->|Hin]; [done|]. by rewrite IH.
Qed.

Lemma first_index_snoc_new o l :
  o ∉ l → first_index o (l ++ [o]) = Z.of_nat (length l).
Proof.
  induction l as [|x l IH]; intros Hnot.
  - cbn [app]. rewrite first_index_cons. by rewrite decide_True.
  - apply not_elem_of_cons in Hnot as [Hne Hnot].
    cbn [app length]. rewrite first_index_cons, decide_False, IH by done.
    rewrite decide_False by lia. lia.
Qed.

Lemma elem_of_delete_other l (k : nat) o o' :
  l !! k = Some o → o' ≠ o → o' ∈ delete k l ↔ o' ∈ l.
Proof.
  intros Hk Hne. rewrite delete_take_drop.
  rewrite <- (take_drop_middle l k o Hk) at 3.
  rewrite !elem_of_app, elem_of_cons.
  split; [intros [?|?]; auto|intros [?|[?|?]]; [auto|done|auto]].
Qed.
End FirstIndexMore.

(** A call either returns, or raises [IndexError] with every field as it was
    before the call. *)
Definition returns_or_rejects {S R} (o : outcome S R) (s : S) : Prop :=
  match o with
  | Return _ _ => True
  | Raise e s' => e = IndexError ∧ s' = s
  end.

(** A call returns. *)
Definition returns {S R} (o : outcome S R) : Prop :=
  match o with
  | Return _ _ => True
  | Raise _ _ => False
  end.

(** ** The extras *)

(** X1: [DynamicArray.clear] returns on every state; it leaves the capacity
    and the slots past the length as they were, puts [None] in every slot
    that was live and sets the length to 0, so that afterwards [is_empty()]
    is true, [size()] is 0, the iteration yields nothing and [contains]
    is false for every value. *)
Theorem clear_empties {T} `{EqDecision T} (d : DynamicArray.t T) :
  DynamicArray.Inv d →
  ∃ d', DynamicArray.clear d = Return tt d'
    ∧ DynamicArray._len d' = 0
    ∧ DynamicArray._capacity d' = DynamicArray._capacity d
    ∧ length (DynamicArray._arr d') = length (DynamicArray._arr d)
    ∧ (∀ k : nat, (k < Z.to_nat (DynamicArray._len d))%nat →
         DynamicArray._arr d' !! k = Some None)
    ∧ (∀ k : nat, (Z.to_nat (DynamicArray._len d) ≤ k)%nat →
         DynamicArray._arr d' !! k = DynamicArray._arr d !! k)
    ∧ DynamicArray.is_empty d' = Return true d'
    ∧ DynamicArray.size d' = Return 0 d'
    ∧ DynamicArray.__iter__ d' = ([], None)
    ∧ ∀ o, DynamicArray.contains o d' = Return false d'.
Proof.
  intros Hd. pose proof Hd as [Hc Hn].
  pose proof (DynamicArrayFacts.Inv_after_clear d Hd) as Hd'.
  exists (DynamicArray.after_clear d). split_and!.
  - by apply DynamicArrayFacts.clear_spec.
  - done.
  - done.
  - cbn. rewrite length_app, length_replicate, length_drop. lia.
  - intros k Hk. cbn. rewrite lookup_app_l by (rewrite length_replicate; lia).
    by apply lookup_replicate_2.
  - intros k Hk. cbn. rewrite lookup_app_r by (rewrite length_replicate; lia).
    rewrite length_replicate, lookup_drop. f_equal. lia.
  - done.
  - done.
  - by rewrite DynamicArrayFacts.iter_spec.
  - intros o. by rewrite DynamicArrayFacts.contains_spec.
Qed.

Lemma clear_empties_witness :
  DynamicArray.clear (DynamicArray.mk (T:=Z) 3 2 [Some 1; Some 2; Some 9])
  = Return tt (DynamicArray.mk 3 0 [None; None; Some 9]).
Proof.
  assert (DynamicArray.Inv (DynamicArray.mk (T:=Z) 3 2 [Some 1; Some 2; Some 9])) as Hd
    by (repeat split; cbn; lia).
  destruct (clear_empties _ Hd) as (d' & Hrun & Hlen & Hcap & Hl & H1 & H2 & _).
  rewrite Hrun. f_equal. destruct d' as [c n a]. cbn in *. subst c n.
  f_equal. apply list_eq. intros [|[|[|k]]].
  - apply (H1 0%nat). lia.
  - apply (H1 1%nat). lia.
  - apply (H2 2%nat). lia.
  - rewrite lookup_ge_None_2 by (rewrite Hl; cbn; lia). done.
Defined.

(** X2: [DynamicArray.__getitem__] returns the live element at an index in
    [0, length) and raises [IndexError], leaving the fields, at every other
    index; a negative index is rejected although the plain [get] accepts it. *)
Theorem getitem_checked {T} `{EqDecision T} (d : DynamicArray.t T) (index : Z) :
  DynamicArray.Inv d →
  (0 ≤ index < DynamicArray._len d →
     ∃ x, DynamicArray.live d !! Z.to_nat index = Some x
          ∧ DynamicArray.__getitem__ index d = Return x d
          ∧ DynamicArray.get index d = Return x d)
  ∧ (index < 0 ∨ index >= DynamicArray._len d →
     DynamicArray.__getitem__ index d = Raise IndexError d)
  ∧ (- DynamicArray._capacity d ≤ index < 0 →
     DynamicArray.__getitem__ index d = Raise IndexError d
     ∧ ∃ x, DynamicArray.get index d = Return x d).
Proof.
  intros Hd. pose proof Hd as [Hc Hn]. split_and!.
  - intros Hi. destruct (DynamicArrayMore.getitem_spec d index Hd Hi) as (x & Hx & Hget).
    exists x. split_and!; [done|done|].
    revert Hget. unfold DynamicArray.__getitem__. mstep.
    by rewrite decide_False by lia.
  - apply DynamicArrayMore.getitem_out_of_range.
  - intros Hi. split; [apply DynamicArrayMore.getitem_out_of_range; lia|].
    unfold DynamicArray.get, DynamicArray.arr_get. run.
    unfold getitem. rewrite norm_index_negative by lia. cbn.
    destruct (lookup_lt_is_Some_2 (DynamicArray._arr d)
                (Z.to_nat (Z.of_nat (length (DynamicArray._arr d)) + index)))
      as [x ->]; [lia|].
    by exists x.
Qed.

Lemma getitem_checked_witness :
  DynamicArray.__getitem__ (-1) (DynamicArray.mk (T:=Z) 2 1 [Some 3; None])
  = Raise IndexError (DynamicArray.mk 2 1 [Some 3; None])
  ∧ DynamicArray.__getitem__ 0 (DynamicArray.mk (T:=Z) 2 1 [Some 3; None])
    = Return (Some 3) (DynamicArray.mk 2 1 [Some 3; None]).
Proof.
  assert (DynamicArray.Inv (DynamicArray.mk (T:=Z) 2 1 [Some 3; None])) as Hd
    by (repeat split; cbn; lia).
  split.
  - apply (getitem_checked _ (-1) Hd). cbn. lia.
  - destruct (getitem_checked _ 0 Hd) as [Hin _].
    destruct Hin as (x & Hx & Hget & _); [cbn; lia|].
    cbn in Hx. injection Hx as <-. exact Hget.
Defined.

(** X3: [DynamicArray.__setitem__] at an index in [0, length) replaces that
    live element and nothing else: [__getitem__] at the index then returns
    the value, every other live element, the length and the capacity are as
    before; at every other index it raises [IndexError] and leaves the
    fields. *)
Theorem setitem_then_getitem {T} `{EqDecision T}
    (d : DynamicArray.t T) (index : Z) (v : obj T) :
  DynamicArray.Inv d →
  (0 ≤ index < DynamicArray._len d →
     ∃ d', DynamicArray.__setitem__ index v d = Return tt d'
       ∧ DynamicArray.__getitem__ index d' = Return v d'
       ∧ DynamicArray.live d' = <[Z.to_nat index := v]> (DynamicArray.live d)
       ∧ (∀ j x, j ≠ index → DynamicArray.__getitem__ j d = Return x d →
                 DynamicArray.__getitem__ j d' = Return x d')
       ∧ DynamicArray._len d' = DynamicArray._len d
       ∧ DynamicArray._capacity d' = DynamicArray._capacity d)
  ∧ (index < 0 ∨ index >= DynamicArray._len d →
     DynamicArray.__setitem__ index v d = Raise IndexError d).
Proof.
  intros Hd. pose proof Hd as [Hc Hn]. split.
  - intros Hi.
    set (d' := DynamicArray.set_arr (<[Z.to_nat index := v]> (DynamicArray._arr d)) d).
    assert (DynamicArray.Inv d') as Hd' by by apply DynamicArrayMore.Inv_set_arr_insert.
    assert (DynamicArray.live d' = <[Z.to_nat index := v]> (DynamicArray.live d)) as Hlive
      by (apply DynamicArrayMore.live_set_arr_insert; lia).
    pose proof (DynamicArrayFacts.length_live d Hd) as Hll.
    exists d'. split_and!; [by apply DynamicArrayMore.setitem_spec| |done| |done|done].
    + destruct (DynamicArrayMore.getitem_spec d' index Hd') as (x & Hx & ->); [done|].
      rewrite Hlive, list_lookup_insert_eq in Hx by lia. congruence.
    + intros j x Hj Hget.
      destruct (decide (0 ≤ j < DynamicArray._len d)) as [Hjr|Hjr].
      * destruct (DynamicArrayMore.getitem_spec d j Hd Hjr) as (y & Hy & Hget').
        destruct (DynamicArrayMore.getitem_spec d' j Hd' Hjr) as (z & Hz & ->).
        rewrite Hlive, list_lookup_insert_ne in Hz by lia. congruence.
      * rewrite DynamicArrayMore.getitem_out_of_range in Hget by lia. done.
  - apply DynamicArrayMore.setitem_out_of_range.
Qed.

Lemma setitem_then_getitem_witness :
  DynamicArray.__setitem__ 1 (Some 7) (DynamicArray.mk (T:=Z) 2 1 [Some 3; None])
  = Raise IndexError (DynamicArray.mk 2 1 [Some 3; None])
  ∧ ∃ d', DynamicArray.__setitem__ 0 (Some 7) (DynamicArray.mk (T:=Z) 2 1 [Some 3; None])
          = Return tt d'
          ∧ DynamicArray.__getitem__ 0 d' = Return (Some 7) d'.
Proof.
  assert (DynamicArray.Inv (DynamicArray.mk (T:=Z) 2 1 [Some 3; None])) as Hd
    by (repeat split; cbn; lia).
  split.
  - apply (setitem_then_getitem _ 1 (Some 7) Hd). cbn. lia.
  - destruct (setitem_then_getitem _ 0 (Some 7) Hd) as [Hin _].
    destruct Hin as (d' & Hset & Hget & _); [cbn; lia|].
    by exists d'.
Defined.

(** X4: [MerabsDinamicArr.get] and [set_at] check the index against the
    length: at an index in [0, length) [get] returns the live element and
    [set_at] replaces it and nothing else, so that [get] then returns the
    value; at every other index both raise [IndexError] and leave the
    fields. *)
Theorem merabs_set_at_then_get {T} `{EqDecision T}
    (m : MerabsDinamicArr.t T) (index : Z) (v : obj T) :
  MerabsDinamicArr.Live m →
  (0 ≤ index < MerabsDinamicArr.len m →
     ∃ x m', MerabsDinamicArr.live m !! Z.to_nat index = Some x
       ∧ MerabsDinamicArr.get index m = Return x m
       ∧ MerabsDinamicArr.set_at index v m = Return tt m'
       ∧ MerabsDinamicArr.get index m' = Return v m'
       ∧ MerabsDinamicArr.live m' = <[Z.to_nat index := v]> (MerabsDinamicArr.live m)
       ∧ MerabsDinamicArr.len m' = MerabsDinamicArr.len m
       ∧ MerabsDinamicArr.capacity m' = MerabsDinamicArr.capacity m)
  ∧ (index < 0 ∨ index >= MerabsDinamicArr.len m →
     MerabsDinamicArr.get index m = Raise IndexError m
     ∧ MerabsDinamicArr.set_at index v m = Raise IndexError m).
Proof.
  intros Hm. split.
  - intros Hi.
    set (m' := MerabsDinamicArr.set_arr (<[Z.to_nat index := v]> (MerabsDinamicArr.arr m)) m).
    assert (MerabsDinamicArr.Live m') as Hm' by by apply MerabsMore.Live_set_arr_insert.
    assert (MerabsDinamicArr.live m' = <[Z.to_nat index := v]> (MerabsDinamicArr.live m))
      as Hlive by (apply MerabsMore.m_live_set_arr_insert; lia).
    pose proof (MerabsFacts.m_length_live m Hm) as Hll.
    destruct (MerabsFacts.m_get_spec m index Hm Hi) as (x & Hx & Hget).
    exists x, m'. split_and!; [done|done|by apply MerabsMore.m_set_at_spec| |done|done|done].
    destruct (MerabsFacts.m_get_spec m' index Hm') as (y & Hy & ->); [done|].
    rewrite Hlive, list_lookup_insert_eq in Hy by lia. congruence.
  - intros Hi. split.
    + by apply MerabsFacts.m_get_out_of_range.
    + by apply MerabsFacts.m_set_at_out_of_range.
Qed.

Lemma merabs_set_at_then_get_witness :
  MerabsDinamicArr.get 1 (MerabsDinamicArr.mk (T:=Z) 2 1 [Some 3; None])
  = Raise IndexError (MerabsDinamicArr.mk 2 1 [Some 3; None])
  ∧ ∃ m', MerabsDinamicArr.set_at 0 (Some 7) (MerabsDinamicArr.mk (T:=Z) 2 1 [Some 3; None])
          = Return tt m'
          ∧ MerabsDinamicArr.get 0 m' = Return (Some 7) m'.
Proof.
  assert (MerabsDinamicArr.Live (MerabsDinamicArr.mk (T:=Z) 2 1 [Some 3; None])) as Hm
    by (repeat split; cbn; lia).
  split.
  - apply (merabs_set_at_then_get _ 1 (Some 7) Hm). cbn. lia.
  - destruct (merabs_set_at_then_get _ 0 (Some 7) Hm) as [Hin _].
    destruct Hin as (x & m' & _ & _ & Hset & Hget & _); [cbn; lia|].
    by exists m'.
Defined.

(** X5: the plain [DynamicArray.get] and [set] follow Python's list
    indexing on the whole store: an index in [-capacity, 0) addresses slot
    [capacity + index], which [get] returns and [set] overwrites, and an
    index below [-capacity] or not below [capacity] raises [IndexError]
    and leaves the fields. *)
Theorem raw_accessors_wrap_and_reject {T} `{EqDecision T}
    (d : DynamicArray.t T) (index : Z) (v : obj T) :
  DynamicArray.Inv d →
  (- DynamicArray._capacity d ≤ index < 0 →
     ∃ x, DynamicArray._arr d !! Z.to_nat (DynamicArray._capacity d + index) = Some x
          ∧ DynamicArray.get index d = Return x d
          ∧ DynamicArray.set index v d
            = Return tt (DynamicArray.set_arr
                (<[Z.to_nat (DynamicArray._capacity d + index) := v]> (DynamicArray._arr d)) d))
  ∧ (index < - DynamicArray._capacity d ∨ DynamicArray._capacity d ≤ index →
     DynamicArray.get index d = Raise IndexError d
     ∧ DynamicArray.set index v d = Raise IndexError d).
Proof.
  intros [Hc Hn]. split.
  - intros Hi.
    destruct (lookup_lt_is_Some_2 (DynamicArray._arr d)
                (Z.to_nat (DynamicArray._capacity d + index))) as [x Hx]; [lia|].
    exists x. split_and!; [done| |].
    + unfold DynamicArray.get, DynamicArray.arr_get. run.
      unfold getitem. rewrite norm_index_negative by lia. cbn.
      rewrite <- Hc. by rewrite Hx.
    + unfold DynamicArray.set, DynamicArray.arr_set. run.
      unfold setitem. rewrite norm_index_negative by lia. cbn.
      by rewrite <- Hc.
  - intros Hi. split.
    + unfold DynamicArray.get, DynamicArray.arr_get. run.
      by rewrite getitem_outside by lia.
    + unfold DynamicArray.set, DynamicArray.arr_set. run.
      by rewrite setitem_outside by lia.
Qed.

Lemma raw_accessors_wrap_and_reject_witness :
  DynamicArray.get (-1) (DynamicArray.mk (T:=Z) 3 2 [Some 1; Some 2; None])
  = Return None (DynamicArray.mk 3 2 [Some 1; Some 2; None])
  ∧ DynamicArray.get 3 (DynamicArray.mk (T:=Z) 3 2 [Some 1; Some 2; None])
    = Raise IndexError (DynamicArray.mk 3 2 [Some 1; Some 2; None]).
Proof.
  assert (DynamicArray.Inv (DynamicArray.mk (T:=Z) 3 2 [Some 1; Some 2; None])) as Hd
    by (repeat split; cbn; lia).
  split.
  - destruct (raw_accessors_wrap_and_reject _ (-1) None Hd) as [Hin _].
    destruct Hin as (x & Hx & Hget & _); [cbn; lia|].
    cbn in Hx. injection Hx as <-. exact Hget.
  - apply (raw_accessors_wrap_and_reject _ 3 None Hd). cbn. lia.
Defined.

(** X6: [remove_at] at an index in [0, length) takes out the element at
    that index and keeps the others in their order.  [DynamicArray.remove_at]
    returns the element and leaves a store of exactly the remaining
    [length - 1] elements, with the capacity equal to the new length;
    [MerabsDinamicArr.remove_at] returns [None], keeps the capacity and the
    size of the store, and puts [None] in the slot that is freed. *)
Theorem remove_at_takes_out {T} `{EqDecision T}
    (d : DynamicArray.t T) (i : Z) (m : MerabsDinamicArr.t T) (j : Z) :
  DynamicArray.Inv d → 0 ≤ i < DynamicArray._len d →
  MerabsDinamicArr.Live m → 0 ≤ j < MerabsDinamicArr.len m →
  (∃ x d', DynamicArray.live d !! Z.to_nat i = Some x
     ∧ DynamicArray.remove_at i d = Return x d'
     ∧ DynamicArray._arr d' = delete (Z.to_nat i) (DynamicArray.live d)
     ∧ DynamicArray.live d' = delete (Z.to_nat i) (DynamicArray.live d)
     ∧ DynamicArray._len d' = DynamicArray._len d - 1
     ∧ DynamicArray._capacity d' = DynamicArray._len d - 1)
  ∧ (∃ m', MerabsDinamicArr.remove_at j m = Return None m'
     ∧ MerabsDinamicArr.live m' = delete (Z.to_nat j) (MerabsDinamicArr.live m)
     ∧ MerabsDinamicArr.len m' = MerabsDinamicArr.len m - 1
     ∧ MerabsDinamicArr.capacity m' = MerabsDinamicArr.capacity m
     ∧ length (MerabsDinamicArr.arr m') = length (MerabsDinamicArr.arr m)
     ∧ MerabsDinamicArr.arr m' !! Z.to_nat (MerabsDinamicArr.len m - 1) = Some None).
Proof.
  intros Hd Hi Hm Hj. split.
  - destruct (DynamicArrayFacts.remove_at_spec d i Hd Hi) as (x & Hx & Hrm).
    exists x, (DynamicArray.after_remove_at i d).
    split_and!; [done|done|done| |done|done].
    by apply DynamicArrayFacts.live_after_remove_at.
  - exists (MerabsDinamicArr.after_remove_at j m).
    pose proof (MerabsFacts.m_length_live m Hm) as Hll.
    split_and!; [by apply MerabsFacts.m_remove_at_spec| |done|done| |].
    + by apply MerabsFacts.m_live_after_remove_at.
    + by apply MerabsFacts.m_length_after_remove_at.
    + cbn. destruct Hm as [Hn0 Hn].
      assert (length (delete (Z.to_nat j) (MerabsDinamicArr.live m))
              = Z.to_nat (MerabsDinamicArr.len m - 1)) as Hdl
        by (rewrite length_delete by (apply lookup_lt_is_Some_2; lia); lia).
      rewrite lookup_app_r by lia. by rewrite Hdl, Nat.sub_diag.
Qed.

Lemma remove_at_takes_out_witness :
  (∃ d', DynamicArray.remove_at 0 (DynamicArray.mk (T:=Z) 4 3 [Some 1; Some 2; Some 3; None])
         = Return (Some 1) d' ∧ DynamicArray._arr d' = [Some 2; Some 3])
  ∧ (∃ m', MerabsDinamicArr.remove_at 0
             (MerabsDinamicArr.mk (T:=Z) 4 3 [Some 1; Some 2; Some 3; None])
           = Return None m' ∧ MerabsDinamicArr.live m' = [Some 2; Some 3]).
Proof.
  assert (DynamicArray.Inv (DynamicArray.mk (T:=Z) 4 3 [Some 1; Some 2; Some 3; None])) as Hd
    by (repeat split; cbn; lia).
  assert (MerabsDinamicArr.Live
            (MerabsDinamicArr.mk (T:=Z) 4 3 [Some 1; Some 2; Some 3; None])) as Hm
    by (repeat split; cbn; lia).
  destruct (remove_at_takes_out _ 0 _ 0 Hd ltac:(cbn; lia) Hm ltac:(cbn; lia))
    as [(x & d' & Hx & Hrm & Harr & _) (m' & Hrm' & Hlive & _)].
  cbn in Hx. injection Hx as <-. split.
  - exists d'. split; [exact Hrm|exact Harr].
  - exists m'. split; [exact Hrm'|exact Hlive].
Defined.

(** X7: in every state of a [MerabsDinamicArr], whatever calls led to it
    and whatever capacity it was built with, every slot past the length holds
    [None]: no call leaves an element behind the live ones. *)
Theorem merabs_slots_past_length_empty {T} `{EqDecision T}
    (m : MerabsDinamicArr.t T) (k : nat) :
  MerabsDinamicArr.reachable m →
  (Z.to_nat (MerabsDinamicArr.len m) ≤ k < length (MerabsDinamicArr.arr m))%nat →
  MerabsDinamicArr.arr m !! k = Some None.
Proof. intros Hm Hk. by apply MerabsMore.m_reachable_slack_empty. Qed.

Lemma merabs_slots_past_length_empty_witness :
  let m := MerabsDinamicArr.exec (MerabsDinamicArr.CRemoveAt 0)
             (MerabsDinamicArr.exec (MerabsDinamicArr.CAdd (Some 2))
                (MerabsDinamicArr.exec (MerabsDinamicArr.CAdd (Some 1))
                   (MerabsDinamicArr.mk (T:=Z) 2 0 [None; None]))) in
  MerabsDinamicArr.len m = 1 ∧ MerabsDinamicArr.arr m !! 1%nat = Some None.
Proof.
  cbn zeta. split; [by vm_compute|].
  apply merabs_slots_past_length_empty.
  - exists 2, (MerabsDinamicArr.mk 2 0 [None; None]). split; [done|].
    do 3 apply MerabsDinamicArr.reach_call. apply MerabsDinamicArr.reach_refl.
  - vm_compute. split; [apply le_n|apply le_n].
Defined.

(** X8: the backing list has exactly [capacity] slots in every state of a
    [DynamicArray], and in every state of a [MerabsDinamicArr] built with a
    capacity that is not negative. *)
Theorem store_has_capacity_slots {T} `{EqDecision T}
    (d : DynamicArray.t T) (c : Z) (m0 m : MerabsDinamicArr.t T) :
  DynamicArray.reachable d →
  0 ≤ c → MerabsDinamicArr.__init__ c = inr m0 →
  MerabsDinamicArr.reachable_from m0 m →
  Z.of_nat (length (DynamicArray._arr d)) = DynamicArray._capacity d
  ∧ Z.of_nat (length (MerabsDinamicArr.arr m)) = MerabsDinamicArr.capacity m.
Proof.
  intros [Hd _]%DynamicArrayFacts.reachable_Inv Hc Hinit Hreach. split; [done|].
  destruct (MerabsFacts.m_reachable_from_Inv m0 m) as [[Hcap _] _];
    [by apply (MerabsFacts.Inv_m_init c)|done|done].
Qed.

Lemma store_has_capacity_slots_witness :
  Z.of_nat (length (DynamicArray._arr
    (DynamicArray.exec (DynamicArray.CAdd (Some 1)) (DynamicArray.mk (T:=Z) 0 0 []))))
  = DynamicArray._capacity
      (DynamicArray.exec (DynamicArray.CAdd (Some 1)) (DynamicArray.mk (T:=Z) 0 0 [])).
Proof.
  refine (proj1 (store_has_capacity_slots _ 1 (MerabsDinamicArr.mk 1 0 [None])
                   (MerabsDinamicArr.mk 1 0 [None]) _ _ _ _)).
  - apply DynamicArray.reach_call. by apply (DynamicArray.reach_init 0).
  - lia.
  - done.
  - apply MerabsDinamicArr.reach_refl.
Defined.

(** X9: after [add(x)] the value is found: [contains(x)] is true, and
    [index_of(x)] is the index it already had when it was among the live
    elements, and the old length otherwise; every value that was contained
    still is. *)
Theorem add_then_contains {T} `{EqDecision T}
    (d : DynamicArray.t T) (m : MerabsDinamicArr.t T) (x : obj T) :
  DynamicArray.Inv d → MerabsDinamicArr.Inv m → 1 ≤ MerabsDinamicArr.capacity m →
  (∃ d', DynamicArray.add x d = Return tt d'
     ∧ DynamicArray.contains x d' = Return true d'
     ∧ DynamicArray.index_of x d'
       = Return (if decide (x ∈ DynamicArray.live d)
                 then first_index x (DynamicArray.live d)
                 else DynamicArray._len d) d'
     ∧ ∀ o, DynamicArray.contains o d = Return true d →
            DynamicArray.contains o d' = Return true d')
  ∧ (∃ m', MerabsDinamicArr.add x m = Return tt m'
     ∧ MerabsDinamicArr.contains x m' = Return true m'
     ∧ MerabsDinamicArr.index_of x m'
       = Return (if decide (x ∈ MerabsDinamicArr.live m)
                 then first_index x (MerabsDinamicArr.live m)
                 else MerabsDinamicArr.len m) m'
     ∧ ∀ o, MerabsDinamicArr.contains o m = Return true m →
            MerabsDinamicArr.contains o m' = Return true m').
Proof.
  intros Hd Hm Hc1.
  assert (∀ l : list (obj T), first_index x (l ++ [x])
            = if decide (x ∈ l) then first_index x l else Z.of_nat (length l)) as Hidx.
  { intros l. case_decide; [by apply first_index_app_l|by apply first_index_snoc_new]. }
  assert (∀ (l : list (obj T)) o, bool_decide (first_index o l ≠ -1) = true →
            bool_decide (first_index o (l ++ [x]) ≠ -1) = true) as Hkeep.
  { intros l o Hb%bool_decide_eq_true_1. apply bool_decide_eq_true_2.
    apply first_index_found_iff, elem_of_app. left. by apply first_index_found_iff. }
  split.
  - pose proof (DynamicArrayFacts.Inv_after_add d x Hd) as Hd'.
    pose proof (DynamicArrayFacts.live_after_add d x Hd) as Hlive.
    pose proof (DynamicArrayFacts.length_live d Hd) as Hll. destruct Hd as [Hc Hn].
    exists (DynamicArray.after_add x d).
    split_and!; [by apply DynamicArrayFacts.add_spec| | |].
    + rewrite DynamicArrayFacts.contains_spec, Hlive by done. f_equal.
      apply bool_decide_eq_true_2, first_index_found_iff, elem_of_app.
      right. apply list_elem_of_singleton. done.
    + rewrite DynamicArrayFacts.index_of_spec, Hlive, Hidx by done. f_equal.
      case_decide; [done|lia].
    + intros o. rewrite !DynamicArrayFacts.contains_spec, Hlive by (done || by split).
      intros [= Hb]. by rewrite (Hkeep _ _ Hb).
  - pose proof (MerabsFacts.Inv_m_after_add m x Hm Hc1) as Hm'.
    pose proof (MerabsFacts.m_live_after_add m x Hm Hc1) as Hlive.
    pose proof (MerabsFacts.m_length_live m (MerabsFacts.Inv_Live m Hm)) as Hll.
    pose proof (MerabsFacts.Inv_Live _ Hm') as HL'.
    pose proof (MerabsFacts.Inv_Live _ Hm) as HL. destruct HL as [Hn0 Hn].
    exists (MerabsDinamicArr.after_add x m).
    split_and!; [by apply MerabsFacts.m_add_spec| | |].
    + rewrite MerabsFacts.m_contains_spec, Hlive by done. f_equal.
      apply bool_decide_eq_true_2, first_index_found_iff, elem_of_app.
      right. apply list_elem_of_singleton. done.
    + rewrite MerabsFacts.m_index_of_spec, Hlive, Hidx by done. f_equal.
      case_decide; [done|lia].
    + intros o. rewrite !MerabsFacts.m_contains_spec, Hlive by (done || by split).
      intros [= Hb]. by rewrite (Hkeep _ _ Hb).
Qed.

Lemma add_then_contains_witness :
  (∃ d', DynamicArray.add (Some 7) (DynamicArray.mk (T:=Z) 1 0 [None]) = Return tt d'
         ∧ DynamicArray.contains (Some 7) d' = Return true d')
  ∧ (∃ m', MerabsDinamicArr.add (Some 7) (MerabsDinamicArr.mk (T:=Z) 1 0 [None])
           = Return tt m'
           ∧ MerabsDinamicArr.contains (Some 7) m' = Return true m').
Proof.
  assert (DynamicArray.Inv (DynamicArray.mk (T:=Z) 1 0 [None])) as Hd
    by (repeat split; cbn; lia).
  assert (MerabsDinamicArr.Inv (MerabsDinamicArr.mk (T:=Z) 1 0 [None])) as Hm
    by (repeat split; cbn; lia).
  destruct (add_then_contains _ _ (Some 7) Hd Hm)
    as [(d' & Hadd & Hc & _) (m' & Hadd' & Hc' & _)]; [cbn; lia|].
  split; [by exists d'|by exists m'].
Defined.

(** X10: [remove(o)] of a value that is among the live elements takes out
    its first occurrence only: the live elements afterwards are the old ones
    without the element at the first index holding [o], the length is one
    less, and [contains] answers as before for every other value. *)
Theorem remove_takes_first_occurrence {T} `{EqDecision T}
    (d : DynamicArray.t T) (m : MerabsDinamicArr.t T) (o : obj T) :
  DynamicArray.Inv d → MerabsDinamicArr.Live m →
  (o ∈ DynamicArray.live d →
     ∃ d', DynamicArray.remove o d = Return true d'
       ∧ DynamicArray.live d'
         = delete (Z.to_nat (first_index o (DynamicArray.live d))) (DynamicArray.live d)
       ∧ DynamicArray._len d' = DynamicArray._len d - 1
       ∧ ∀ o', o' ≠ o →
           ∃ b, DynamicArray.contains o' d = Return b d
                ∧ DynamicArray.contains o' d' = Return b d')
  ∧ (o ∈ MerabsDinamicArr.live m →
     ∃ m', MerabsDinamicArr.remove o m = Return true m'
       ∧ MerabsDinamicArr.live m'
         = delete (Z.to_nat (first_index o (MerabsDinamicArr.live m)))
             (MerabsDinamicArr.live m)
       ∧ MerabsDinamicArr.len m' = MerabsDinamicArr.len m - 1
       ∧ ∀ o', o' ≠ o →
           ∃ b, MerabsDinamicArr.contains o' m = Return b m
                ∧ MerabsDinamicArr.contains o' m' = Return b m').
Proof.
  intros Hd Hm.
  assert (∀ (l : list (obj T)) o', o ∈ l → o' ≠ o →
            bool_decide (first_index o' (delete (Z.to_nat (first_index o l)) l) ≠ -1)
            = bool_decide (first_index o' l ≠ -1)) as Hother.
  { intros l o' (k & Hk & Hlook & _)%first_index_present Hne.
    rewrite Hk, Nat2Z.id. apply bool_decide_ext.
    rewrite !first_index_found_iff. by apply (elem_of_delete_other l k o). }
  split.
  - intros Hin. pose proof Hin as (k & Hk & Hlook & _)%first_index_present.
    pose proof (lookup_lt_Some _ _ _ Hlook) as Hlt.
    rewrite DynamicArrayFacts.length_live in Hlt by done.
    assert (0 ≤ first_index o (DynamicArray.live d) < DynamicArray._len d) as Hr by lia.
    pose proof (DynamicArrayFacts.Inv_after_remove_at d _ Hd Hr) as Hd'.
    exists (DynamicArray.after_remove_at (first_index o (DynamicArray.live d)) d).
    split_and!.
    + rewrite DynamicArrayFacts.remove_spec by done. by rewrite decide_False by lia.
    + by apply DynamicArrayFacts.live_after_remove_at.
    + done.
    + intros o' Hne. eexists. split; [by apply DynamicArrayFacts.contains_spec|].
      rewrite DynamicArrayFacts.contains_spec by done.
      rewrite DynamicArrayFacts.live_after_remove_at by done.
      by rewrite Hother.
  - intros Hin. pose proof Hin as (k & Hk & Hlook & _)%first_index_present.
    pose proof (lookup_lt_Some _ _ _ Hlook) as Hlt.
    rewrite MerabsFacts.m_length_live in Hlt by done.
    assert (0 ≤ first_index o (MerabsDinamicArr.live m) < MerabsDinamicArr.len m)
      as Hr by lia.
    pose proof (MerabsFacts.Live_m_after_remove_at m _ Hm Hr) as Hm'.
    exists (MerabsDinamicArr.after_remove_at (first_index o (MerabsDinamicArr.live m)) m).
    split_and!.
    + rewrite MerabsFacts.m_remove_spec by done. by rewrite decide_False by lia.
    + by apply MerabsFacts.m_live_after_remove_at.
    + done.
    + intros o' Hne. eexists. split; [by apply MerabsFacts.m_contains_spec|].
      rewrite MerabsFacts.m_contains_spec by done.
      rewrite MerabsFacts.m_live_after_remove_at by done.
      by rewrite Hother.
Qed.

Lemma remove_takes_first_occurrence_witness :
  (∃ d', DynamicArray.remove (Some 2) (DynamicArray.mk (T:=Z) 3 3 [Some 2; Some 1; Some 2])
         = Return true d' ∧ DynamicArray.live d' = [Some 1; Some 2])
  ∧ (∃ m', MerabsDinamicArr.remove (Some 2)
             (MerabsDinamicArr.mk (T:=Z) 3 3 [Some 2; Some 1; Some 2]) = Return true m'
           ∧ MerabsDinamicArr.live m' = [Some 1; Some 2]).
Proof.
  assert (DynamicArray.Inv (DynamicArray.mk (T:=Z) 3 3 [Some 2; Some 1; Some 2])) as Hd
    by (repeat split; cbn; lia).
  assert (MerabsDinamicArr.Live (MerabsDinamicArr.mk (T:=Z) 3 3 [Some 2; Some 1; Some 2]))
    as Hm by (repeat split; cbn; lia).
  destruct (remove_takes_first_occurrence _ _ (Some 2) Hd Hm) as [H1 H2].
  destruct H1 as (d' & Hrm & Hlive & _); [compute_done|].
  destruct H2 as (m' & Hrm' & Hlive' & _); [compute_done|].
  split; [exists d'|exists m']; (split; [done|]).
  - rewrite Hlive. by vm_compute.
  - rewrite Hlive'. by vm_compute.
Defined.

(** X11: [remove_at] followed by [add]: the live elements are the old ones
    without the removed one, followed by the new one, and the length is as
    before.  On a [DynamicArray] the removal leaves no free slot, so the
    [add] always allocates a new store, of capacity 1 when the array was
    emptied and of twice the remaining length otherwise; on a
    [MerabsDinamicArr] the [add] reuses the freed slot and the capacity is
    as before. *)
Theorem remove_at_then_add {T} `{EqDecision T}
    (d : DynamicArray.t T) (i : Z) (m : MerabsDinamicArr.t T) (j : Z) (x : obj T) :
  DynamicArray.Inv d → 0 ≤ i < DynamicArray._len d →
  MerabsDinamicArr.Inv m → 0 ≤ j < MerabsDinamicArr.len m →
  (∃ r d1 d2, DynamicArray.remove_at i d = Return r d1
     ∧ DynamicArray.add x d1 = Return tt d2
     ∧ DynamicArray._capacity d1 = DynamicArray._len d - 1
     ∧ DynamicArray._capacity d2
       = (if decide (DynamicArray._len d = 1) then 1 else (DynamicArray._len d - 1) * 2)
     ∧ DynamicArray._len d2 = DynamicArray._len d
     ∧ DynamicArray.live d2 = delete (Z.to_nat i) (DynamicArray.live d) ++ [x])
  ∧ (∃ r m1 m2, MerabsDinamicArr.remove_at j m = Return r m1
     ∧ MerabsDinamicArr.add x m1 = Return tt m2
     ∧ MerabsDinamicArr.capacity m2 = MerabsDinamicArr.capacity m
     ∧ MerabsDinamicArr.len m2 = MerabsDinamicArr.len m
     ∧ MerabsDinamicArr.live m2 = delete (Z.to_nat j) (MerabsDinamicArr.live m) ++ [x]).
Proof.
  intros Hd Hi Hm Hj. split.
  - destruct (DynamicArrayFacts.remove_at_spec d i Hd Hi) as (r & _ & Hrm).
    pose proof (DynamicArrayFacts.Inv_after_remove_at d i Hd Hi) as Hd1.
    set (d1 := DynamicArray.after_remove_at i d) in *.
    exists r, d1, (DynamicArray.after_add x d1).
    split_and!; [done|by apply DynamicArrayFacts.add_spec|done| | |].
    + unfold DynamicArray.after_add, DynamicArray.grown. cbn.
      rewrite decide_True by lia. cbn.
      destruct (decide (DynamicArray._len d = 1)) as [->|Hne]; [done|].
      by rewrite decide_False by lia.
    + unfold DynamicArray.after_add. case_decide; cbn; lia.
    + rewrite DynamicArrayFacts.live_after_add by done.
      unfold d1. by rewrite DynamicArrayFacts.live_after_remove_at.
  - pose proof (MerabsFacts.Inv_Live m Hm) as HL.
    pose proof (MerabsFacts.Inv_m_after_remove_at m j Hm Hj) as Hm1.
    set (m1 := MerabsDinamicArr.after_remove_at j m) in *.
    destruct Hm as [Hc [Hn0 Hn]].
    assert (1 ≤ MerabsDinamicArr.capacity m1) as Hc1 by (cbn; lia).
    exists None, m1, (MerabsDinamicArr.after_add x m1).
    split_and!; [by apply MerabsFacts.m_remove_at_spec|by apply MerabsFacts.m_add_spec| | |].
    + unfold MerabsDinamicArr.after_add, MerabsDinamicArr.after_resize. cbn.
      by rewrite decide_False by lia.
    + cbn. lia.
    + rewrite MerabsFacts.m_live_after_add by done.
      unfold m1. by rewrite MerabsFacts.m_live_after_remove_at.
Qed.

Lemma remove_at_then_add_witness :
  (∃ r d1 d2, DynamicArray.remove_at 0 (DynamicArray.mk (T:=Z) 16 3
                  (Some 1 :: Some 2 :: Some 3 :: replicate 13 None)) = Return r d1
     ∧ DynamicArray.add (Some 4) d1 = Return tt d2
     ∧ DynamicArray._capacity d2 = 4)
  ∧ (∃ r m1 m2, MerabsDinamicArr.remove_at 0 (MerabsDinamicArr.mk (T:=Z) 4 3
                  [Some 1; Some 2; Some 3; None]) = Return r m1
     ∧ MerabsDinamicArr.add (Some 4) m1 = Return tt m2
     ∧ MerabsDinamicArr.capacity m2 = 4).
Proof.
  assert (DynamicArray.Inv (DynamicArray.mk (T:=Z) 16 3
            (Some 1 :: Some 2 :: Some 3 :: replicate 13 None))) as Hd
    by (repeat split; cbn; lia).
  assert (MerabsDinamicArr.Inv (MerabsDinamicArr.mk (T:=Z) 4 3
            [Some 1; Some 2; Some 3; None])) as Hm
    by (repeat split; cbn; lia).
  destruct (remove_at_then_add _ 0 _ 0 (Some 4) Hd ltac:(cbn; lia) Hm ltac:(cbn; lia))
    as [(r & d1 & d2 & Hrm & Hadd & _ & Hcap & _) (r' & m1 & m2 & Hrm' & Hadd' & Hcap' & _)].
  split.
  - exists r, d1, d2. split_and!; [done|done|]. rewrite Hcap. done.
  - exists r', m1, m2. split_and!; [done|done|]. rewrite Hcap'. done.
Defined.

(** X12: no call on a [MerabsDinamicArr] built with a capacity that is not
    negative ever lowers the capacity or the size of the store. *)
Theorem merabs_capacity_never_shrinks {T} `{EqDecision T}
    (c : Z) (m0 m : MerabsDinamicArr.t T) (call : MerabsDinamicArr.call T) :
  0 ≤ c → MerabsDinamicArr.__init__ c = inr m0 →
  MerabsDinamicArr.reachable_from m0 m →
  c ≤ MerabsDinamicArr.capacity m
  ∧ MerabsDinamicArr.capacity m ≤ MerabsDinamicArr.capacity (MerabsDinamicArr.exec call m)
  ∧ (length (MerabsDinamicArr.arr m)
     ≤ length (MerabsDinamicArr.arr (MerabsDinamicArr.exec call m)))%nat.
Proof.
  intros Hc Hinit Hreach.
  destruct (MerabsFacts.m_reachable_from_Inv m0 m) as [Hm Hcap];
    [by apply (MerabsFacts.Inv_m_init c)|done|].
  pose proof (MerabsFacts.m_capacity_exec call m Hm) as Hmono.
  pose proof (MerabsFacts.Inv_m_exec call m Hm) as [Hc' _].
  destruct Hm as [Hcm _]. injection Hinit as <-. cbn in Hcap.
  split_and!; [done|done|lia].
Qed.

Lemma merabs_capacity_never_shrinks_witness :
  MerabsDinamicArr.capacity (MerabsDinamicArr.mk (T:=Z) 2 0 [None; None])
  ≤ MerabsDinamicArr.capacity
      (MerabsDinamicArr.exec (MerabsDinamicArr.CRemoveAt 0)
         (MerabsDinamicArr.mk (T:=Z) 2 0 [None; None])).
Proof.
  refine (proj1 (proj2 (merabs_capacity_never_shrinks 2 _ _ _ _ _ _))).
  - lia.
  - done.
  - apply MerabsDinamicArr.reach_refl.
Defined.

(** X13: on a [DynamicArray], [add], [clear], [remove], [index_of] and
    [contains] never raise, and [get], [set], [remove_at], [__getitem__] and
    [__setitem__] either return or raise [IndexError] with every field as it
    was before the call: no call raises another exception or leaves the
    object half updated. *)
Theorem dynamic_array_calls_return_or_reject {T} `{EqDecision T}
    (d : DynamicArray.t T) (i : Z) (x : obj T) :
  DynamicArray.Inv d →
  returns (DynamicArray.add x d)
  ∧ returns (DynamicArray.clear d)
  ∧ returns (DynamicArray.remove x d)
  ∧ returns (DynamicArray.index_of x d)
  ∧ returns (DynamicArray.contains x d)
  ∧ returns_or_rejects (DynamicArray.get i d) d
  ∧ returns_or_rejects (DynamicArray.set i x d) d
  ∧ returns_or_rejects (DynamicArray.remove_at i d) d
  ∧ returns_or_rejects (DynamicArray.__getitem__ i d) d
  ∧ returns_or_rejects (DynamicArray.__setitem__ i x d) d.
Proof.
  intros Hd.
  assert (returns_or_rejects (DynamicArray.get i d) d) as Hget.
  { unfold DynamicArray.get, DynamicArray.arr_get. run.
    by destruct (getitem (DynamicArray._arr d) i). }
  assert (returns_or_rejects (DynamicArray.set i x d) d) as Hset.
  { unfold DynamicArray.set, DynamicArray.arr_set. run.
    by destruct (setitem (DynamicArray._arr d) i x). }
  split_and!.
  - by rewrite DynamicArrayFacts.add_spec.
  - by rewrite DynamicArrayFacts.clear_spec.
  - rewrite DynamicArrayFacts.remove_spec by done. by case_decide.
  - by rewrite DynamicArrayFacts.index_of_spec.
  - by rewrite DynamicArrayFacts.contains_spec.
  - done.
  - done.
  - destruct (decide (0 ≤ i < DynamicArray._len d)) as [Hi|Hi].
    + by destruct (DynamicArrayFacts.remove_at_spec d i Hd Hi) as (r & _ & ->).
    + by rewrite DynamicArrayFacts.remove_at_out_of_range by lia.
  - unfold DynamicArray.__getitem__. mstep. by case_decide.
  - unfold DynamicArray.__setitem__. mstep. by case_decide.
Qed.

Lemma dynamic_array_calls_return_or_reject_witness :
  returns_or_rejects
    (DynamicArray.set 5 (Some 1) (DynamicArray.mk (T:=Z) 2 1 [Some 3; None]))
    (DynamicArray.mk 2 1 [Some 3; None]).
Proof.
  assert (DynamicArray.Inv (DynamicArray.mk (T:=Z) 2 1 [Some 3; None])) as Hd
    by (repeat split; cbn; lia).
  apply (dynamic_array_calls_return_or_reject _ 5 (Some 1) Hd).
Defined.

(** X14: on a [MerabsDinamicArr] built with a capacity that is not negative,
    [remove], [index_of] and [contains] never raise, [add] never raises when
    there is at least one slot, and [add], [get], [set_at] and [remove_at]
    either return or raise [IndexError] with every field as it was. *)
Theorem merabs_calls_return_or_reject {T} `{EqDecision T}
    (m : MerabsDinamicArr.t T) (i : Z) (x : obj T) :
  MerabsDinamicArr.Inv m →
  returns (MerabsDinamicArr.remove x m)
  ∧ returns (MerabsDinamicArr.index_of x m)
  ∧ returns (MerabsDinamicArr.contains x m)
  ∧ (1 ≤ MerabsDinamicArr.capacity m → returns (MerabsDinamicArr.add x m))
  ∧ returns_or_rejects (MerabsDinamicArr.add x m) m
  ∧ returns_or_rejects (MerabsDinamicArr.get i m) m
  ∧ returns_or_rejects (MerabsDinamicArr.set_at i x m) m
  ∧ returns_or_rejects (MerabsDinamicArr.remove_at i m) m.
Proof.
  intros Hm. pose proof (MerabsFacts.Inv_Live m Hm) as HL.
  pose proof Hm as [Hc [Hn0 Hn]]. split_and!.
  - rewrite MerabsFacts.m_remove_spec by done. by case_decide.
  - by rewrite MerabsFacts.m_index_of_spec.
  - by rewrite MerabsFacts.m_contains_spec.
  - intros Hc1. by rewrite MerabsFacts.m_add_spec.
  - destruct (decide (MerabsDinamicArr.capacity m = 0)) as [Hc0|Hc0].
    + by rewrite MerabsFacts.m_add_capacity_0.
    + by rewrite MerabsFacts.m_add_spec by (done || lia).
  - destruct (decide (0 ≤ i < MerabsDinamicArr.len m)) as [Hi|Hi].
    + by destruct (MerabsFacts.m_get_spec m i HL Hi) as (y & _ & ->).
    + by rewrite MerabsFacts.m_get_out_of_range by lia.
  - destruct (decide (0 ≤ i < MerabsDinamicArr.len m)) as [Hi|Hi].
    + by rewrite MerabsMore.m_set_at_spec.
    + by rewrite MerabsFacts.m_set_at_out_of_range by lia.
  - destruct (decide (0 ≤ i < MerabsDinamicArr.len m)) as [Hi|Hi].
    + by rewrite MerabsFacts.m_remove_at_spec.
    + by rewrite MerabsFacts.m_remove_at_out_of_range by lia.
Qed.

Lemma merabs_calls_return_or_reject_witness :
  returns_or_rejects
    (MerabsDinamicArr.add (Some 1) (MerabsDinamicArr.mk (T:=Z) 0 0 []))
    (MerabsDinamicArr.mk 0 0 []).
Proof.
  assert (MerabsDinamicArr.Inv (MerabsDinamicArr.mk (T:=Z) 0 0 [])) as Hm
    by (repeat split; cbn; lia).
  apply (merabs_calls_return_or_reject _ 0 (Some 1) Hm).
Defined.

(** X15: the constructor of [MerabsDinamicArr] accepts every negative
    capacity [c] and builds an object without slot; each call of [add] on it
    raises [IndexError] and yet leaves the capacity doubled. *)
Theorem merabs_failed_add_doubles_negative_capacity {T} `{EqDecision T}
    (c : Z) (x : obj T) :
  c < 0 →
  MerabsDinamicArr.__init__ (T:=T) c = inr (MerabsDinamicArr.mk c 0 [])
  ∧ MerabsDinamicArr.add x (MerabsDinamicArr.mk c 0 [])
    = Raise IndexError (MerabsDinamicArr.mk (c * 2) 0 []).
Proof.
  intros Hc. split; [|by apply MerabsMore.m_add_negative].
  unfold MerabsDinamicArr.__init__, none_list.
  by replace (Z.to_nat c) with 0%nat by lia.
Qed.

Lemma merabs_failed_add_doubles_negative_capacity_witness :
  MerabsDinamicArr.add (Some 1) (MerabsDinamicArr.mk (T:=Z) (-3) 0 [])
  = Raise IndexError (MerabsDinamicArr.mk (-6) 0 []).
Proof.
  apply (merabs_failed_add_doubles_negative_capacity (-3) (Some 1)). lia.
Defined.

(** X16: [__str__] of both classes renders the live elements, each by
    [str], separated by a comma and a space and enclosed in brackets, which
    is ["[]"] when there is none; [DynamicArray.__repr__] wraps that
    rendering in ["DynamicArray("] and [")"]. *)
Theorem str_renders_live {T} `{EqDecision T} (str_T : T → string)
    (d : DynamicArray.t T) (m : MerabsDinamicArr.t T) :
  DynamicArray.Inv d → MerabsDinamicArr.Live m →
  DynamicArray.__str__ str_T d
  = Return ("[" +:+ String.concat ", " (py_str str_T <$> DynamicArray.live d) +:+ "]") d
  ∧ DynamicArray.__repr__ str_T d
    = Return ("DynamicArray([" +:+ String.concat ", " (py_str str_T <$> DynamicArray.live d)
              +:+ "])") d
  ∧ MerabsDinamicArr.__str__ str_T m
    = Return ("[" +:+ String.concat ", " (py_str str_T <$> MerabsDinamicArr.live m)
              +:+ "]") m.
Proof.
  intros Hd Hm. split_and!.
  - by apply DynamicArrayMore.str_spec.
  - unfold DynamicArray.__repr__.
    mreturn (DynamicArrayMore.str_spec str_T d Hd). unfold mret, M_ret. f_equal.
    change ("DynamicArray(" +:+ ?a +:+ ")") with ("DynamicArray(" +:+ (a +:+ ")")).
    change ("DynamicArray([" +:+ ?a) with ("DynamicArray(" +:+ ("[" +:+ a)).
    by rewrite !string_app_assoc.
  - by apply MerabsMore.m_str_spec.
Qed.

Lemma str_renders_live_witness :
  DynamicArray.__repr__ id (DynamicArray.mk 3 2 [Some "a"; None; None])
  = Return "DynamicArray([a, None])" (DynamicArray.mk 3 2 [Some "a"; None; None])
  ∧ MerabsDinamicArr.__str__ id (MerabsDinamicArr.mk 2 0 [None; None])
    = Return "[]" (MerabsDinamicArr.mk 2 0 [@None string; None]).
Proof.
  assert (DynamicArray.Inv (DynamicArray.mk 3 2 [Some "a"; None; None])) as Hd
    by (repeat split; cbn; lia).
  assert (MerabsDinamicArr.Live (MerabsDinamicArr.mk 2 0 [@None string; None])) as Hm
    by (repeat split; cbn; lia).
  destruct (str_renders_live id _ _ Hd Hm) as (_ & Hrepr & Hstr).
  split; [exact Hrepr|exact Hstr].
Defined.

(** X17: in every state of a [DynamicArray] on which the plain [set] was
    only called with an index in [0, length), every slot past the length
    holds [None]. *)
Theorem checked_slots_past_length_empty {T} `{EqDecision T}
    (d : DynamicArray.t T) (k : nat) :
  DynamicArray.reachable_checked d →
  (Z.to_nat (DynamicArray._len d) ≤ k < length (DynamicArray._arr d))%nat →
  DynamicArray._arr d !! k = Some None.
Proof.
  intros [_ Hs]%DynamicArrayFacts.reachable_checked_slack_empty Hk. by apply Hs.
Qed.

Lemma checked_slots_past_length_empty_witness :
  let d := DynamicArray.exec DynamicArray.CClear
             (DynamicArray.exec (DynamicArray.CAdd (Some 1))
                (DynamicArray.mk (T:=Z) 4 0 [None; None; None; None])) in
  DynamicArray._arr d !! 0%nat = Some None.
Proof.
  cbn zeta. apply checked_slots_past_length_empty.
  - apply DynamicArray.checked_call; [|intros []].
    apply DynamicArray.checked_call; [|intros []].
    by apply (DynamicArray.checked_init 4).
  - vm_compute. split; [apply le_0_n|]. do 1 apply le_n_S. apply le_0_n.
Defined.

(** X18: after a run of [add] calls on any array the iteration yields the
    elements that were live before, then the added values in the order of
    the calls; on a [MerabsDinamicArr] (with at least one slot) those of them
    that are not [None]. *)
Theorem iter_after_add_all {T} `{EqDecision T}
    (d : DynamicArray.t T) (m : MerabsDinamicArr.t T) (xs : list (obj T)) :
  DynamicArray.Inv d → MerabsDinamicArr.Inv m → 1 ≤ MerabsDinamicArr.capacity m →
  (∃ d', DynamicArray.add_all xs d = Return tt d'
     ∧ DynamicArray.__iter__ d' = (DynamicArray.live d ++ xs, None)
     ∧ DynamicArray.size d' = Return (DynamicArray._len d + Z.of_nat (length xs)) d')
  ∧ (∃ m', MerabsDinamicArr.add_all xs m = Return tt m'
     ∧ MerabsDinamicArr.__iter__ m'
       = (filter (λ x, x ≠ None) (MerabsDinamicArr.live m ++ xs), None)
     ∧ MerabsDinamicArr.size m'
       = Return (MerabsDinamicArr.len m + Z.of_nat (length xs)) m').
Proof.
  intros Hd Hm Hc1. split.
  - destruct (DynamicArrayFacts.add_all_spec xs d Hd) as (d' & Hrun & Hd' & Hlen & Hlive).
    exists d'. split_and!; [done| |].
    + by rewrite DynamicArrayFacts.iter_spec, Hlive.
    + unfold DynamicArray.size, gets. by rewrite Hlen.
  - destruct (MerabsFacts.m_add_all_spec xs m Hm Hc1)
      as (m' & Hrun & Hm' & _ & Hlen & Hlive).
    exists m'. split_and!; [done| |].
    + by rewrite MerabsFacts.m_iter_spec, Hlive by by apply MerabsFacts.Inv_Live.
    + unfold MerabsDinamicArr.size, gets. by rewrite Hlen.
Qed.

Lemma iter_after_add_all_witness :
  (∃ d', DynamicArray.add_all [Some 1; None] (DynamicArray.mk (T:=Z) 1 0 [None])
         = Return tt d' ∧ DynamicArray.__iter__ d' = ([Some 1; None], None))
  ∧ (∃ m', MerabsDinamicArr.add_all [Some 1; None] (MerabsDinamicArr.mk (T:=Z) 1 0 [None])
           = Return tt m' ∧ MerabsDinamicArr.__iter__ m' = ([Some 1], None)).
Proof.
  assert (DynamicArray.Inv (DynamicArray.mk (T:=Z) 1 0 [None])) as Hd
    by (repeat split; cbn; lia).
  assert (MerabsDinamicArr.Inv (MerabsDinamicArr.mk (T:=Z) 1 0 [None])) as Hm
    by (repeat split; cbn; lia).
  destruct (iter_after_add_all _ _ [Some 1; None] Hd Hm)
    as [(d' & Hrun & Hit & _) (m' & Hrun' & Hit' & _)]; [cbn; lia|].
  split; [exists d'|exists m']; (split; [done|]).
  - rewrite Hit. by vm_compute.
  - rewrite Hit'. by vm_compute.
Defined.
